(** * ming: the session layer ([ming/session.py])

    A shallow embedding of [Session] and of the collaborators it drives:
    the Python heap of document objects, the identity map, the unit of
    work and the storage gateway (a pymongo collection).  Session methods
    are state-and-exception computations over a [world]; every gateway
    call is recorded in a trace so that "a storage call is issued" is a
    statement about the model. *)

From Stdlib Require Import ZArith String.
From stdpp Require Import gmap strings list fin_maps.

Local Open Scope string_scope.
Local Open Scope list_scope.

(** ** BSON values and documents *)

(** The scalar values that the modelled operations exchange with the
    store: Python's [None], integers, strings, generated object ids, and
    the (opaque, non-empty) acknowledgement a [safe=True] update returns. *)
Inductive value :=
  | VNone
  | VInt (n : Z)
  | VStr (s : string)
  | VOid (n : positive)
  | VAck.

#[global] Instance value_eq_dec : EqDecision value.
Proof. solve_decision. Defined.

Definition value_enc (v : value) : (bool + Z) + (string + positive) :=
  match v with
  | VNone => inl (inl false)
  | VAck => inl (inl true)
  | VInt n => inl (inr n)
  | VStr s => inr (inl s)
  | VOid n => inr (inr n)
  end.

Definition value_dec (x : (bool + Z) + (string + positive)) : value :=
  match x with
  | inl (inl false) => VNone
  | inl (inl true) => VAck
  | inl (inr n) => VInt n
  | inr (inl s) => VStr s
  | inr (inr n) => VOid n
  end.

#[global] Instance value_countable : Countable value :=
  inj_countable' value_enc value_dec
    (λ v, match v with
          | VNone | VInt _ | VStr _ | VOid _ | VAck => eq_refl
          end).

(** A document (a Python [dict] / BSON record): field name to value. *)
Abbreviation bson := (gmap string value).

(** Python truthiness of a value ([if result ...]). *)
Definition truthy (v : value) : bool :=
  match v with
  | VNone => false
  | VInt n => negb (n =? 0)%Z
  | VStr s => negb (String.eqb s "")
  | VOid _ => true
  | VAck => true
  end.

(** [isinstance(v, pymongo.objectid.ObjectId)] *)
Definition is_oid (v : value) : bool :=
  match v with VOid _ => true | _ => false end.

(** ** The storage gateway

    The store is external to the repository; the model below follows the
    operation set the session consumes (find-one, update, save, insert,
    remove) with the store's single-document semantics. *)

(** The conditions a query may put on a field: equality with a value (a
    plain [{field: v}] entry) or [{field: {'$lt': v}}]. *)
Inductive cond :=
  | CEq (v : value)
  | CLt (v : value).

#[global] Instance cond_eq_dec : EqDecision cond.
Proof. solve_decision. Defined.

Abbreviation query := (gmap string cond).

(** The store compares values of one type only; [None] is below nothing
    and nothing is below [None]. *)
Definition value_ltb (a b : value) : bool :=
  match a, b with
  | VInt x, VInt y => (x <? y)%Z
  | VStr x, VStr y => String.ltb x y
  | VOid x, VOid y => (x <? y)%positive
  | _, _ => false
  end.

(** A missing field reads as null for an equality test, so [{f: None}]
    selects the records where [f] is null or missing; [$lt] never selects
    a record where the field is missing. *)
Definition matches_cond (o : option value) (c : cond) : bool :=
  match c with
  | CEq v => bool_decide (default VNone o = v)
  | CLt v => match o with Some x => value_ltb x v | None => false end
  end.

Definition matches (q : query) (r : bson) : bool :=
  bool_decide (map_Forall (λ f c, matches_cond (r !! f) c = true) q).

(** The two shapes of update document the session sends: a [$set] of some
    fields, or a whole replacement document. *)
Inductive update_doc :=
  | USet (vals : bson)
  | UReplace (doc : bson).

(** A replacement keeps the primary key of the record it replaces. *)
Definition apply_update (u : update_doc) (r : bson) : bson :=
  match u with
  | USet vals => vals ∪ r
  | UReplace d =>
      match r !! "_id" with
      | Some k => <["_id" := k]> d
      | None => d
      end
  end.

(** [find_one]: the first record, in the collection's natural order, that
    the query selects. *)
Fixpoint find_first (q : query) (c : list bson) : option bson :=
  match c with
  | [] => None
  | r :: c' => if matches q r then Some r else find_first q c'
  end.

(** [update(spec, document)] with [multi=False]: the first selected record
    is rewritten, nothing happens if none is selected. *)
Fixpoint update_first (q : query) (u : update_doc) (c : list bson) : list bson :=
  match c with
  | [] => []
  | r :: c' =>
      if matches q r then apply_update u r :: c'
      else r :: update_first q u c'
  end.

(** [remove(spec)]: every selected record goes. *)
Definition remove_all (q : query) (c : list bson) : list bson :=
  List.filter (λ r, negb (matches q r)) c.

(** The fields an upsert that selects nothing starts its new record from:
    the equality entries of the query. *)
Definition query_eq_fields (q : query) : bson :=
  omap (λ c, match c with CEq v => Some v | CLt _ => None end) q.

Record database := Database {
  db_colls : gmap string (list bson);
  db_next_oid : positive
}.

(** [db[name]]: collections exist lazily, an unknown name is empty. *)
Definition db_coll (db : database) (name : string) : list bson :=
  default [] (db_colls db !! name).

Definition db_set_coll (db : database) (name : string) (c : list bson) : database :=
  {| db_colls := <[name := c]> (db_colls db); db_next_oid := db_next_oid db |}.

Definition rid (r : bson) : value := default VNone (r !! "_id").

(** The store's own invariant: primary keys are unique in a collection. *)
Definition unique_ids (c : list bson) : Prop := NoDup (rid <$> c).

(** Exceptions.  [NoObject] belongs to the model only: it is what reading
    through a reference that names no heap object gives, which no Python
    program can do. *)
Inductive exn :=
  | ValueError (key : string) (v : value)
  | AttributeError (attr : string)
  | KeyError (key : string)
  | IndexError
  | Invalid (msg : string)
  | OperationFailure (msg : string)
  | NoObject (ref : nat).

Inductive result (A : Type) :=
  | Ok (a : A)
  | Raise (e : exn).
Arguments Ok {A} a.
Arguments Raise {A} e.

(** What the store does with each gateway call, as a function of the
    collection name and the database. *)
Definition find_one_op (name : string) (q : query) (db : database)
  : result (option bson) * database :=
  (Ok (find_first q (db_coll db name)), db).

(** A record without a primary key receives a generated object id. *)
Definition assign_id (data : bson) (db : database) : bson * database :=
  match data !! "_id" with
  | Some _ => (data, db)
  | None =>
      (<["_id" := VOid (db_next_oid db)]> data,
       {| db_colls := db_colls db; db_next_oid := Pos.succ (db_next_oid db) |})
  end.

Definition insert_op (name : string) (data : bson) (db : database)
  : result value * database :=
  let '(data', db1) := assign_id data db in
  let c := db_coll db1 name in
  if existsb (λ r, bool_decide (rid r = rid data')) c
  then (Raise (OperationFailure "duplicate key"), db1)
  else (Ok (rid data'), db_set_coll db1 name (c ++ [data'])).

Definition upsert_record (q : query) (u : update_doc) : bson :=
  match u with
  | USet vals => vals ∪ query_eq_fields q
  | UReplace d =>
      match query_eq_fields q !! "_id" with
      | Some k => d ∪ {["_id" := k]}
      | None => d
      end
  end.

Definition update_op (name : string) (q : query) (u : update_doc)
    (upsert : bool) (db : database) : result value * database :=
  let c := db_coll db name in
  match find_first q c with
  | Some _ => (Ok VAck, db_set_coll db name (update_first q u c))
  | None =>
      if upsert then
        match insert_op name (upsert_record q u) db with
        | (Ok _, db') => (Ok VAck, db')
        | (Raise e, db') => (Raise e, db')
        end
      else (Ok VAck, db)
  end.

(** pymongo's [Collection.save]: insert when the document has no [_id],
    else replace-or-insert by [_id]; returns the [_id]. *)
Definition save_op (name : string) (data : bson) (db : database)
  : result value * database :=
  match data !! "_id" with
  | None => insert_op name data db
  | Some k =>
      match update_op name {["_id" := CEq k]} (UReplace data) true db with
      | (Ok _, db') => (Ok k, db')
      | (Raise e, db') => (Raise e, db')
      end
  end.

Definition remove_op (name : string) (q : query) (db : database)
  : result unit * database :=
  (Ok tt, db_set_coll db name (remove_all q (db_coll db name))).

(** The trace of gateway calls, oldest first. *)
Inductive call :=
  | CallFindOne (coll : string) (q : query)
  | CallUpdate (coll : string) (q : query) (u : update_doc) (upsert : bool)
  | CallSave (coll : string) (data : bson)
  | CallInsert (coll : string) (data : bson)
  | CallRemove (coll : string) (q : query).

(** ** The world a session runs in *)

(** A document class is identified by its name. *)
Abbreviation cls := string.

(** An [Object] on the Python heap: its class and its fields. *)
Record obj := Obj { o_cls : cls; o_fields : bson }.

(** How [cls.make] was called: with its defaults, or with explicit
    [allow_extra] and [strip_extra]. *)
Inductive make_flags :=
  | DefaultFlags
  | Flags (allow_extra strip_extra : bool).

(** What the session reads off a document class: [__mongometa__.name],
    [__mongometa__.schema], [__mongometa__.before_save], and the virtual
    constructor [make].  Validators, hooks and [make] are application
    code: functions on the fields that may raise. *)
Record doc_class := DocClass {
  mongometa_name : string;
  mongometa_schema : option (bson → result bson);
  mongometa_before_save : option (bson → result bson);
  make : make_flags → bson → result bson
}.

(** [Session.bind]: [None], or a datastore whose [db] may be [None]. *)
Inductive binding :=
  | NoBind
  | Bound (db : option database).

Inductive uow_state := Clean | Dirty | New.

#[global] Instance uow_state_eq_dec : EqDecision uow_state.
Proof. solve_decision. Defined.

Record world := World {
  w_heap : list obj;
  w_bind : binding;
  w_autoflush : bool;
  w_imap : gmap (cls * value) nat;
  w_uow : gmap nat uow_state;
  w_calls : list call
}.

Definition set_heap (w : world) (h : list obj) : world :=
  {| w_heap := h; w_bind := w_bind w; w_autoflush := w_autoflush w;
     w_imap := w_imap w; w_uow := w_uow w; w_calls := w_calls w |}.

Definition set_bind (w : world) (b : binding) : world :=
  {| w_heap := w_heap w; w_bind := b; w_autoflush := w_autoflush w;
     w_imap := w_imap w; w_uow := w_uow w; w_calls := w_calls w |}.

Definition set_imap (w : world) (m : gmap (cls * value) nat) : world :=
  {| w_heap := w_heap w; w_bind := w_bind w; w_autoflush := w_autoflush w;
     w_imap := m; w_uow := w_uow w; w_calls := w_calls w |}.

Definition set_uow (w : world) (u : gmap nat uow_state) : world :=
  {| w_heap := w_heap w; w_bind := w_bind w; w_autoflush := w_autoflush w;
     w_imap := w_imap w; w_uow := u; w_calls := w_calls w |}.

Definition set_calls (w : world) (l : list call) : world :=
  {| w_heap := w_heap w; w_bind := w_bind w; w_autoflush := w_autoflush w;
     w_imap := w_imap w; w_uow := w_uow w; w_calls := l |}.

(** The database behind the session, when it is bound to one. *)
Definition w_db (w : world) : option database :=
  match w_bind w with
  | Bound (Some db) => Some db
  | _ => None
  end.

(** ** Computations: state and exceptions *)

Definition M (A : Type) : Type := world → result A * world.

Definition ret {A} (a : A) : M A := λ w, (Ok a, w).

Definition raise {A} (e : exn) : M A := λ w, (Raise e, w).

Definition bind {A B} (m : M A) (k : A → M B) : M B := λ w,
  match m w with
  | (Ok a, w') => k a w'
  | (Raise e, w') => (Raise e, w')
  end.

Notation "'let*' x ':=' m 'in' k" := (bind m (λ x, k))
  (at level 10, x pattern, m at level 100, k at level 200).

Definition lift {A} (r : result A) : M A := λ w, (r, w).

Fixpoint mapM {A B} (f : A → M B) (l : list A) : M (list B) :=
  match l with
  | [] => ret []
  | a :: l' => let* b := f a in let* bs := mapM f l' in ret (b :: bs)
  end.

(** ** Objects on the heap *)

(** Modelled from the spec: [Object] (base.py is not among the sources),
    the document object.  It is a [dict] whose items are also its
    attributes; [update] overrides items, reading a missing attribute or
    item fails. *)
Definition deref (r : nat) : M obj := λ w,
  match w_heap w !! r with
  | Some o => (Ok o, w)
  | None => (Raise (NoObject r), w)
  end.

(** A new object; its reference is the next free heap index. *)
Definition alloc (c : cls) (f : bson) : M nat := λ w,
  (Ok (length (w_heap w)), set_heap w (w_heap w ++ [Obj c f])).

(** Overwrite the fields of the object at [r], in place. *)
Definition set_fields (r : nat) (f : bson) : M unit :=
  let* o := deref r in
  λ w, (Ok tt, set_heap w (<[r := Obj (o_cls o) f]> (w_heap w))).

(** [doc.update(d)]: the items of [d] override those of [doc]. *)
Definition obj_update (r : nat) (d : bson) : M unit :=
  let* o := deref r in set_fields r (d ∪ o_fields o).

(** [doc.attr]: [AttributeError] when the item is missing. *)
Definition getattr (r : nat) (attr : string) : M value :=
  let* o := deref r in
  match o_fields o !! attr with
  | Some v => ret v
  | None => raise (AttributeError attr)
  end.

(** [doc[k]]: [KeyError] when the item is missing. *)
Definition getitem (r : nat) (k : string) : M value :=
  let* o := deref r in
  match o_fields o !! k with
  | Some v => ret v
  | None => raise (KeyError k)
  end.

(** [doc.attr = v] *)
Definition setattr (r : nat) (attr : string) (v : value) : M unit :=
  let* o := deref r in set_fields r (<[attr := v]> (o_fields o)).

(** [data[k]] on a plain dict. *)
Definition dict_getitem (d : bson) (k : string) : M value :=
  match d !! k with
  | Some v => ret v
  | None => raise (KeyError k)
  end.

(** ** Identity map and unit of work *)

(** Modelled from the spec: [IdentityMap] (identity_map.py is not among
    the sources).  It maps (type, primary key) to the live instance;
    [get] has no side effect and gives [None] when there is no entry,
    [save] registers or overwrites the entry of the object's own
    (type, key), [clear] evicts everything.  The spec leaves [save] of an
    object without a primary key undefined; here the attribute read
    fails. *)
Definition imap_get (c : cls) (k : value) : M (option nat) := λ w,
  (Ok (w_imap w !! (c, k)), w).

Definition imap_save (r : nat) : M unit :=
  let* o := deref r in
  let* k := getattr r "_id" in
  λ w, (Ok tt, set_imap w (<[(o_cls o, k) := r]> (w_imap w))).

Definition imap_clear : M unit := λ w, (Ok tt, set_imap w ∅).

(** Modelled from the spec: [UnitOfWork] (unit_of_work.py is not among
    the sources).  Every tracked object is classified clean, dirty or
    new; [clear] forgets all of them. *)
Definition uow_save (s : uow_state) (r : nat) : M unit := λ w,
  (Ok tt, set_uow w (<[r := s]> (w_uow w))).

Definition uow_save_clean : nat → M unit := uow_save Clean.
Definition uow_save_dirty : nat → M unit := uow_save Dirty.
Definition uow_save_new : nat → M unit := uow_save New.

Definition uow_clear : M unit := λ w, (Ok tt, set_uow w ∅).

(** ** Gateway calls made by the session *)

(** Looking a method up on what [_impl] returned: on [None] that is an
    [AttributeError], raised before the arguments are evaluated. *)
Definition method (h : option string) (attr : string) : M string :=
  match h with
  | Some name => ret name
  | None => raise (AttributeError attr)
  end.

(** Run a store operation against the session's database and record the
    call in the trace. *)
Definition gateway {A} (c : call) (op : database → result A * database) : M A := λ w,
  match w_bind w with
  | Bound (Some db) =>
      let '(r, db') := op db in
      (r, set_calls (set_bind w (Bound (Some db'))) (w_calls w ++ [c]))
  | _ => (Raise (AttributeError "db"), w)
  end.

Definition coll_find_one (name : string) (q : query) : M (option bson) :=
  gateway (CallFindOne name q) (find_one_op name q).

Definition coll_update (name : string) (q : query) (u : update_doc) (upsert : bool)
  : M value :=
  gateway (CallUpdate name q u upsert) (update_op name q u upsert).

Definition coll_save (name : string) (data : bson) : M value :=
  gateway (CallSave name data) (save_op name data).

Definition coll_insert (name : string) (data : bson) : M value :=
  gateway (CallInsert name data) (insert_op name data).

Definition coll_remove (name : string) (q : query) : M unit :=
  gateway (CallRemove name q) (remove_op name q).

(** Keyword arguments, in the iteration order of the [kwargs] dict. *)
Abbreviation kwargs := (list (string * value)).

Definition kw_dict (kw : kwargs) : bson := list_to_map kw.

(** A dict of plain values used as a query: every entry is an equality. *)
Definition eq_query (d : bson) : query := CEq <$> d.

(** [spec_fields] of [upsert]: one field name, or a list of them. *)
Inductive spec_fields :=
  | OneField (k : string)
  | FieldList (ks : list string).

(** ** Session *)

Section Session.

(** The document classes of the application, by name, and the
    normalisation [Object.make_safe] performs on an object's fields
    (base.py is not among the sources). *)
Variable classes : cls → doc_class.
Variable make_safe_fields : bson → bson.

(** [Session._impl]: the collection of a class.  [self.bind.db[...]]
    fails with an [AttributeError] on an unbound session; the
    [TypeError] of subscripting a missing [db] is caught and gives
    [None]. *)
Definition _impl (c : cls) : M (option string) := λ w,
  match w_bind w with
  | NoBind => (Raise (AttributeError "db"), w)
  | Bound None => (Ok None, w)
  | Bound (Some _) => (Ok (Some (mongometa_name (classes c))), w)
  end.

(** [_impl(doc)] for an instance: the collection of its class. *)
Definition _impl_of (doc : nat) : M (option string) :=
  let* o := deref doc in _impl (o_cls o).

(** [Session.fresh_object] *)
Definition fresh_object (c : cls) (b : bson) : M nat :=
  let* cached :=
    match b !! "_id" with
    | Some k => imap_get c k
    | None => ret None
    end in
  let* r :=
    match cached with
    | None =>
        let* f := lift (make (classes c) (Flags false true) b) in
        alloc c f
    | Some r =>
        let* f := lift (make (classes c) DefaultFlags b) in
        let* _ := obj_update r f in
        ret r
    end in
  let* _ := imap_save r in
  let* _ := uow_save_clean r in
  ret r.

(** [Session.get] *)
Definition get (c : cls) (kw : kwargs) : M (option nat) :=
  let* result :=
    if decide (kw.*1 = ["_id"]) then
      let* k := dict_getitem (kw_dict kw) "_id" in
      imap_get c k
    else ret None in
  match result with
  | Some r => ret (Some r)
  | None =>
      let* h := _impl c in
      let* name := method h "find_one" in
      let* found := coll_find_one name (eq_query (kw_dict kw)) in
      match found with
      | None => ret None
      | Some b => let* r := fresh_object c b in ret (Some r)
      end
  end.

(** [Session.soil] *)
Definition soil (doc : nat) : M unit := λ w,
  if w_autoflush w then (Ok tt, w) else uow_save_dirty doc w.

(** [Session.join_new] *)
Definition join_new (doc : nat) : M unit :=
  let* _ := uow_save_new doc in imap_save doc.

(** [Session.clear] *)
Definition clear : M unit :=
  let* _ := uow_clear in imap_clear.

(** [doc.make_safe()] *)
Definition make_safe (doc : nat) : M unit :=
  let* o := deref doc in set_fields doc (make_safe_fields (o_fields o)).

(** The steps [save], [insert] and [upsert] all start with:
    [doc.make_safe()], then [schema.validate(doc)] when the class has a
    schema and [dict(doc)] otherwise, then [doc.update(data)]. *)
Definition validated (doc : nat) : M bson :=
  let* _ := make_safe doc in
  let* o := deref doc in
  let* data :=
    match mongometa_schema (classes (o_cls o)) with
    | Some validate => lift (validate (o_fields o))
    | None => ret (o_fields o)
    end in
  let* _ := obj_update doc data in
  ret data.

(** [hook.im_func(doc)]: the hook works on the object in place. *)
Definition run_hook (hook : bson → result bson) (doc : nat) : M unit :=
  let* o := deref doc in
  let* f := lift (hook (o_fields o)) in
  set_fields doc f.

(** [dict((arg, data[arg]) for arg in args)] *)
Definition pick (data : bson) (args : list string) : M bson :=
  let* kvs := mapM (λ a, let* v := dict_getitem data a in ret (a, v)) args in
  ret (list_to_map kvs).

(** [Session.save] *)
Definition save (doc : nat) (args : list string) : M unit :=
  let* o := deref doc in
  let* _ :=
    match mongometa_before_save (classes (o_cls o)) with
    | Some hook => run_hook hook doc
    | None => ret tt
    end in
  let* data := validated doc in
  let* result :=
    match args with
    | _ :: _ =>
        let* values := pick data args in
        let* h := _impl_of doc in
        let* name := method h "update" in
        let* k := getattr doc "_id" in
        coll_update name {["_id" := CEq k]} (USet values) false
    | [] =>
        let* h := _impl_of doc in
        let* name := method h "save" in
        coll_save name data
    end in
  let* o' := deref doc in
  if truthy result && negb (bool_decide (is_Some (o_fields o' !! "_id")))
  then setattr doc "_id" result
  else ret tt.

(** [Session.insert] *)
Definition insert (doc : nat) : M unit :=
  let* data := validated doc in
  let* h := _impl_of doc in
  let* name := method h "insert" in
  let* k := coll_insert name data in
  if is_oid k then obj_update doc {["_id" := k]} else ret tt.

(** [Session.upsert] *)
Definition upsert (doc : nat) (spec : spec_fields) : M unit :=
  let* _ := validated doc in
  let ks := match spec with OneField k => [k] | FieldList ks => ks end in
  let* h := _impl_of doc in
  let* name := method h "update" in
  let* kvs := mapM (λ k, let* v := getitem doc k in ret (k, v)) ks in
  let* o := deref doc in
  let* _ := coll_update name (eq_query (list_to_map kvs))
              (UReplace (o_fields o)) true in
  ret tt.

(** [Session.delete] *)
Definition delete (doc : nat) : M unit :=
  let* h := _impl_of doc in
  let* name := method h "remove" in
  let* k := getattr doc "_id" in
  coll_remove name {["_id" := CEq k]}.

(** [Session.increase_field] *)
Definition increase_field (doc : nat) (kw : kwargs) : M unit :=
  let* key :=
    match kw.*1 with
    | k :: _ => ret k
    | [] => raise IndexError
    end in
  let* value := dict_getitem (kw_dict kw) key in
  if decide (value = VNone) then raise (ValueError key value) else
  let* o := deref doc in
  let* _ :=
    if decide (is_Some (o_fields o !! key)) then ret tt
    else
      let* h := _impl_of doc in
      let* name := method h "update" in
      let* k := getattr doc "_id" in
      let* _ := coll_update name (<[key := CEq VNone]> {["_id" := CEq k]})
                  (USet {[key := value]}) false in
      ret tt in
  let* h := _impl_of doc in
  let* name := method h "update" in
  let* k := getattr doc "_id" in
  let* _ := coll_update name (<[key := CLt value]> {["_id" := CEq k]})
              (USet {[key := value]}) false in
  ret tt.

End Session.

(** * Vocabulary of the properties *)

(** [keeps proj m]: running [m] never changes the component [proj] of the
    world, whether it returns or raises. *)
Definition keeps {A B} (proj : world → B) (m : M A) : Prop :=
  ∀ w, proj (snd (m w)) = proj w.

(** The session part of the world: the heap, the identity map and the
    unit of work. *)
Definition memory (w : world) : list obj * gmap (cls * value) nat * gmap nat uow_state :=
  (w_heap w, w_imap w, w_uow w).

(** The storage side of the world: the binding (with its database) and
    the trace of gateway calls. *)
Definition store (w : world) : binding * list call := (w_bind w, w_calls w).

(** The world after a gateway call that left the database as [db]. *)
Definition called (w : world) (db : database) (cs : list call) : world :=
  set_calls (set_bind w (Bound (Some db))) (w_calls w ++ cs).

(** The two updates of [increase_field], once its arguments are read. *)
Definition increase_field_updates (classes : cls → doc_class) (doc : nat)
    (key : string) (v : value) : M unit :=
  let* o := deref doc in
  let* _ :=
    if decide (is_Some (o_fields o !! key)) then ret tt
    else
      let* h := _impl_of classes doc in
      let* name := method h "update" in
      let* k := getattr doc "_id" in
      let* _ := coll_update name (<[key := CEq VNone]> {["_id" := CEq k]})
                  (USet {[key := v]}) false in
      ret tt in
  let* h := _impl_of classes doc in
  let* name := method h "update" in
  let* k := getattr doc "_id" in
  let* _ := coll_update name (<[key := CLt v]> {["_id" := CEq k]})
              (USet {[key := v]}) false in
  ret tt.

(** The queries of the two updates: the initialising one selects the
    record of the key only where the field is null or missing, the
    increasing one only where the stored value is below the new one. *)
Definition init_query (key : string) (k : value) : query :=
  <[key := CEq VNone]> {["_id" := CEq k]}.

Definition lt_query (key : string) (v k : value) : query :=
  <[key := CLt v]> {["_id" := CEq k]}.

(** What the two updates leave in the database: [in_doc] tells whether
    the in-memory document had the field. *)
Definition after_init (in_doc : bool) (name key : string) (v k : value)
    (db : database) : database :=
  if in_doc then db
  else snd (update_op name (init_query key k) (USet {[key := v]}) false db).

Definition after_increase (in_doc : bool) (name key : string) (v k : value)
    (db : database) : database :=
  snd (update_op name (lt_query key v k) (USet {[key := v]}) false
         (after_init in_doc name key v k db)).

Definition increase_calls (in_doc : bool) (name key : string) (v k : value)
  : list call :=
  (if in_doc then []
   else [CallUpdate name (init_query key k) (USet {[key := v]}) false])
  ++ [CallUpdate name (lt_query key v k) (USet {[key := v]}) false].

(** A result, or a computation, that is not the [ValueError] of a rejected
    argument. *)
Definition not_value_error {A} (r : result A) : Prop :=
  match r with
  | Raise (ValueError _ _) => False
  | _ => True
  end.

Definition never_value_error {A} (m : M A) : Prop :=
  ∀ w, not_value_error (fst (m w)).

(** What the hook and the validator of a class make of some fields; a
    class without one leaves them as they are. *)
Definition hooked (cl : doc_class) (f : bson) : result bson :=
  match mongometa_before_save cl with
  | Some hook => hook f
  | None => Ok f
  end.

Definition checked (cl : doc_class) (f : bson) : result bson :=
  match mongometa_schema cl with
  | Some validate => validate f
  | None => Ok f
  end.

(** A class whose virtual constructor hands the record's primary key on
    to the object it makes. *)
Definition keeps_id (cl : doc_class) : Prop :=
  ∀ fl (b f : bson), make cl fl b = Ok f → f !! "_id" = b !! "_id".

(** The stored record of a key: what [find_one({_id: k})] gives. *)
Definition stored (db : database) (name : string) (k : value) : option bson :=
  find_first {["_id" := CEq k]} (db_coll db name).

(** [r] is the one record of the collection with primary key [k]. *)
Definition sole (c : list bson) (k : value) (r : bson) : Prop :=
  ∃ l1 l2, c = l1 ++ r :: l2 ∧ rid r = k
           ∧ Forall (λ x, rid x ≠ k) l1 ∧ Forall (λ x, rid x ≠ k) l2.

(** What a [$set] of one field, guarded by a condition on that field,
    makes of a record. *)
Definition set_if (cnd : cond) (key : string) (v : value) (r : bson) : bson :=
  if matches_cond (r !! key) cnd then <[key := v]> r else r.

(** [increase_field(doc, key=v)] for each [v] of a list, in order. *)
Fixpoint increases (classes : cls → doc_class) (doc : nat) (key : string)
    (vs : list Z) : M unit :=
  match vs with
  | [] => ret tt
  | v :: vs' =>
      let* _ := increase_field classes doc [(key, VInt v)] in
      increases classes doc key vs'
  end.

(** The document is on the heap, the session is bound, and the store
    has one record for the document's key. *)
Definition tracked (classes : cls → doc_class) (doc : nat) (o : obj) (k : value)
    (w : world) (r : bson) : Prop :=
  w_heap w !! doc = Some o
  ∧ ∃ db, w_bind w = Bound (Some db)
          ∧ sole (db_coll db (mongometa_name (classes (o_cls o)))) k r.

(** ** A small application

    One collection of users, no schema, and a class whose schema demands
    a name.  The worlds below are used to run the model on concrete
    inputs. *)

Definition user_class : doc_class :=
  DocClass "user" None None (λ _ b, Ok b).

Definition strict_class : doc_class :=
  DocClass "strict"
    (Some (λ f, match f !! "name" with
                | Some _ => Ok f
                | None => Raise (Invalid "name")
                end))
    None (λ _ b, Ok b).

Definition app_classes (c : cls) : doc_class :=
  if String.eqb c "Strict" then strict_class else user_class.

Definition no_escape (f : bson) : bson := f.

Definition rec1 : bson := {["_id" := VInt 1; "name" := VStr "a"]}.

Definition by_id_1 : query := {["_id" := CEq (VInt 1)]}.

Definition db0 : database := Database {["user" := [rec1]]} 1.

(** A fresh session bound to [db0]. *)
Definition w0 : world := World [] (Bound (Some db0)) true ∅ ∅ [].

(** The session after [get(User, _id=1)]. *)
Definition w_cached : world :=
  World [Obj "User" rec1] (Bound (Some db0)) true
    {[("User", VInt 1) := 0%nat]} {[0%nat := Clean]}
    [CallFindOne "user" by_id_1].

(** ... and after a [clear()]. *)
Definition w_cleared : world :=
  World [Obj "User" rec1] (Bound (Some db0)) true ∅ ∅
    [CallFindOne "user" by_id_1].


(** A session holding a document whose [score] was set in memory only:
    the stored record has no [score]. *)
Definition w_local : world :=
  World [Obj "User" (<["score" := VInt 0]> rec1)] (Bound (Some db0)) false ∅ ∅ [].

(** A session holding an edited document, and one holding a document of
    the strict class that has no name. *)
Definition w_edited : world :=
  World [Obj "User" {["_id" := VInt 1; "name" := VStr "z"; "score" := VInt 3]}]
    (Bound (Some db0)) true ∅ ∅ [].

Definition w_strict : world :=
  World [Obj "Strict" {["_id" := VInt 3]}] (Bound (Some db0)) true ∅ ∅ [].

(** * More of the session *)

(** [Session.update_partial] *)
Definition update_partial (classes : cls → doc_class) (c : cls) (spec : query)
    (fields : update_doc) (upsert : bool) : M value :=
  let* h := _impl classes c in
  let* name := method h "update" in
  coll_update name spec fields upsert.

(** [if type(spec_fields) != list: spec_fields = [spec_fields]], as
    [upsert] starts. *)
Definition spec_list (spec : spec_fields) : list string :=
  match spec with
  | OneField k => [k]
  | FieldList ks => ks
  end.

(** The world after [fresh_object] has left the heap as [heap], with the
    object at reference [r] registered under [key] and marked clean. *)
Definition materialised (w : world) (heap : list obj) (key : cls * value) (r : nat)
  : world :=
  set_uow (set_imap (set_heap w heap) (<[key := r]> (w_imap w)))
    (<[r := Clean]> (w_uow w)).

(** ** Nested documents and [Session._set] *)

(** What a [dict] holds under a key, as [_set] sees it: a reference to a
    [dict] object, or any other value (which supports neither [x[k]] nor
    [x[k] = v] for a string [k]). *)
Inductive item :=
  | Plain (v : value)
  | DictRef (r : nat).

(** The [dict] objects of the Python heap, by reference: [_set] changes
    them in place, and one [dict] may be reachable along several paths. *)
Abbreviation dict_heap := (gmap nat (gmap string item)).

(** How a [_set] call ends: normally, with the heap as it has left it, or
    with the [KeyError] of a missing item, or with the [TypeError] of
    subscripting something that is no [dict] (a reference to no object,
    which Python does not have, counts as such).  Nothing is written
    before an error. *)
Inductive set_result :=
  | Done (h : dict_heap)
  | NoKey (k : string)
  | NotADict.

(** The [dict] an item refers to. *)
Definition dict_at (h : dict_heap) (doc : item) : option (gmap string item) :=
  match doc with
  | DictRef r => h !! r
  | Plain _ => None
  end.

(** [Session._set] *)
Fixpoint _set (h : dict_heap) (doc : item) (key_parts : list string) (v : item)
  : set_result :=
  match key_parts with
  | [] => Done h
  | [k] =>
      match doc with
      | DictRef r =>
          match h !! r with
          | Some m => Done (<[r := <[k := v]> m]> h)
          | None => NotADict
          end
      | Plain _ => NotADict
      end
  | k :: rest =>
      match dict_at h doc with
      | Some m =>
          match m !! k with
          | Some child => _set h child rest v
          | None => NoKey k
          end
      | None => NotADict
      end
  end.

(** [doc[k1][k2]...[kn]], when every step is there. *)
Fixpoint lookup_path (h : dict_heap) (doc : item) (path : list string) : option item :=
  match path with
  | [] => Some doc
  | k :: rest =>
      match dict_at h doc with
      | Some m =>
          match m !! k with
          | Some child => lookup_path h child rest
          | None => None
          end
      | None => None
      end
  end.

(** The slots (a [dict] and a key) that reading [doc[k1]...[kn]]
    subscripts, in order. *)
Fixpoint reads (h : dict_heap) (doc : item) (path : list string) : list (nat * string) :=
  match path with
  | [] => []
  | k :: rest =>
      match doc with
      | DictRef r =>
          (r, k) :: match h !! r with
                    | Some m =>
                        match m !! k with
                        | Some child => reads h child rest
                        | None => []
                        end
                    | None => []
                    end
      | Plain _ => []
      end
  end.

(** No [dict] is reachable from itself: the [dict]s can be ranked so that
    every [dict] held in another ranks below it. *)
Definition ranked (h : dict_heap) (rank : nat → nat) : Prop :=
  ∀ r (m : gmap string item) k r',
    h !! r = Some m → m !! k = Some (DictRef r') → (rank r' < rank r)%nat.

(** ** Session registries *)

(** [Session.__init__]: a session is born with the binding and the
    autoflush flag it is given, an empty identity map and an empty unit of
    work; nothing is on its heap and it has made no gateway call. *)
Definition new_session (b : binding) (autoflush : bool) : world :=
  World [] b autoflush ∅ ∅ [].

(** The class-level state [by_name] works on: the session objects made so
    far (a session is named by its position), [_registry] and
    [_datastores].  [S] is the type of the session objects of the class
    [by_name] is called on, [D] what [_datastores] holds. *)
Record registry (S D : Type) := Registry {
  reg_objects : list S;
  reg_names : gmap string nat;
  reg_datastores : gmap string D
}.
Arguments Registry {S D} _ _ _.
Arguments reg_objects {S D} _.
Arguments reg_names {S D} _.
Arguments reg_datastores {S D} _.

(** [Session.by_name]; [construct] is the class applied to
    [_datastores.get(name)]. *)
Definition by_name {S D} (construct : option D → S) (name : string)
    (g : registry S D) : nat * registry S D :=
  match reg_names g !! name with
  | Some s => (s, g)
  | None =>
      let s := length (reg_objects g) in
      (s, {| reg_objects := reg_objects g ++ [construct (reg_datastores g !! name)];
             reg_names := <[name := s]> (reg_names g);
             reg_datastores := reg_datastores g |})
  end.

(** Registered names denote session objects, and different names denote
    different ones. *)
Definition registry_ok {S D} (g : registry S D) : Prop :=
  (∀ n s, reg_names g !! n = Some s → s < length (reg_objects g))
  ∧ (∀ n1 n2 s, reg_names g !! n1 = Some s → reg_names g !! n2 = Some s → n1 = n2).

(** The class attribute [_registry = local()] of [ThreadLocalSession]:
    per thread (named by a number), the [session] attribute when it is
    set; and the session objects made so far. *)
Record thread_local (S : Type) := ThreadLocal {
  tl_objects : list S;
  tl_session : gmap nat nat
}.
Arguments ThreadLocal {S} _ _.
Arguments tl_objects {S} _.
Arguments tl_session {S} _.

(** [ThreadLocalSession._get], called by thread [t] on the
    [ThreadLocalSession] that keeps the arguments [a] ([_cls], [_args],
    [_kwargs]); [construct a] is the call of [self._cls] on [self._args]
    and [self._kwargs]. *)
Definition _get {S A} (construct : A → S) (a : A) (t : nat) (g : thread_local S)
  : nat * thread_local S :=
  match tl_session g !! t with
  | Some s => (s, g)
  | None =>
      let s := length (tl_objects g) in
      (s, {| tl_objects := tl_objects g ++ [construct a];
             tl_session := <[t := s]> (tl_session g) |})
  end.

(** [ThreadLocalSession.close], called by thread [t]:
    [del self._registry.session]. *)
Definition close {S} (t : nat) (g : thread_local S) : result unit * thread_local S :=
  match tl_session g !! t with
  | Some _ =>
      (Ok tt, {| tl_objects := tl_objects g;
                 tl_session := base.delete t (tl_session g) |})
  | None => (Raise (AttributeError "session"), g)
  end.

(** Every thread's session is one of the session objects. *)
Definition thread_local_ok {S} (g : thread_local S) : Prop :=
  ∀ t s, tl_session g !! t = Some s → s < length (tl_objects g).

(** ** More of the small application *)

(** A class whose constructor rejects records without a name. *)
Definition picky_class : doc_class :=
  DocClass "picky" None None
    (λ _ b, match b !! "name" with
            | Some _ => Ok b
            | None => Raise (Invalid "name")
            end).

Definition shop_classes (c : cls) : doc_class :=
  if String.eqb c "Picky" then picky_class else app_classes c.

Definition db1 : database :=
  Database {["user" := [rec1]; "picky" := [{["_id" := VInt 7]}]]} 1.

Definition w_picky : world := World [] (Bound (Some db1)) true ∅ ∅ [].

(** A session with no binding at all. *)
Definition w_unbound : world := World [] NoBind true ∅ ∅ [].

(** A new document, made by the application: it has no primary key. *)
Definition w_new : world :=
  World [Obj "User" {["name" := VStr "n"]}] (Bound (Some db0)) true ∅ ∅ [].

(** A new document to which the application gave a key. *)
Definition w_keyed : world :=
  World [Obj "User" {["_id" := VInt 5; "name" := VStr "n"]}]
    (Bound (Some db0)) true ∅ ∅ [].

(** A cached document that is stale and carries a field of its own. *)
Definition w_stale : world :=
  World [Obj "User" {["_id" := VInt 1; "name" := VStr "old"; "tmp" := VInt 9]}]
    (Bound (Some db0)) true {[("User", VInt 1) := 0%nat]} {[0%nat := Dirty]} [].

(** Two classes whose schema demands a name and that have a before-save
    hook: one hook supplies a name, the other removes it. *)
Definition needs_name (f : bson) : result bson :=
  match f !! "name" with
  | Some _ => Ok f
  | None => Raise (Invalid "name")
  end.

Definition repair_class : doc_class :=
  DocClass "repair" (Some needs_name)
    (Some (λ f, Ok (<["name" := VStr "anon"]> f))) (λ _ b, Ok b).

Definition break_class : doc_class :=
  DocClass "break" (Some needs_name)
    (Some (λ f, Ok (base.delete "name" f))) (λ _ b, Ok b).

Definition hook_classes (c : cls) : doc_class :=
  if String.eqb c "Repair" then repair_class
  else if String.eqb c "Break" then break_class
  else app_classes c.

(** A document without a name, of the class whose hook would supply one;
    and a document with a name, of the class whose hook removes it. *)
Definition w_repair : world :=
  World [Obj "Repair" {["_id" := VInt 3]}] (Bound (Some db0)) true ∅ ∅ [].

Definition w_break : world :=
  World [Obj "Break" {["_id" := VInt 3; "name" := VStr "x"]}]
    (Bound (Some db0)) true ∅ ∅ [].

(** The database after [score] has been set to 5 in the stored user. *)
Definition db0_score5 : database :=
  Database {["user" := [<["score" := VInt 5]> rec1]]} 1.

(** A nested document in which one [dict] (number 1) is held under two
    keys of another (number 0), and what [_set] makes of it when it
    assigns [a.b]. *)
Definition dicts1 : dict_heap :=
  {[0%nat := {["a" := DictRef 1; "also" := DictRef 1; "z" := Plain (VStr "end")]};
    1%nat := {["b" := Plain (VInt 1)]}]}.

Definition dicts1_written : dict_heap :=
  <[1%nat := <["b" := Plain (VInt 2)]> {["b" := Plain (VInt 1)]}]> dicts1.

(** [Session] as the class [by_name] is called on: a datastore is known
    by its [db], which may be missing. *)
Definition session_for (ds : option (option database)) : world :=
  new_session (match ds with Some db => Bound db | None => NoBind end) true.

Definition registry0 : registry world (option database) :=
  Registry [] ∅ {["main" := Some db0]}.

(** A [ThreadLocalSession] over [Session], keeping the binding and the
    flag it will construct sessions with. *)
Definition session_with (a : binding * bool) : world := new_session a.1 a.2.

Definition threads0 : thread_local world := ThreadLocal [] ∅.

(** * Properties *)

(** ** Reasoning about computations *)

Lemma bind_ok {A B} (m : M A) (k : A → M B) w a w1 :
  m w = (Ok a, w1) → bind m k w = k a w1.
Proof. intros H. unfold bind. by rewrite H. Qed.

Lemma bind_raise {A B} (m : M A) (k : A → M B) w e w1 :
  m w = (Raise e, w1) → bind m k w = (Raise e, w1).
Proof. intros H. unfold bind. by rewrite H. Qed.

Create HintDb keeps discriminated.

Lemma keeps_ret {A B} (proj : world → B) (a : A) : keeps proj (ret a).
Proof. by intros w. Qed.

Lemma keeps_raise {A B} (proj : world → B) e : keeps proj (@raise A e).
Proof. by intros w. Qed.

Lemma keeps_lift {A B} (proj : world → B) (r : result A) : keeps proj (lift r).
Proof. by intros w. Qed.

Lemma keeps_bind {A B C} (proj : world → C) (m : M A) (k : A → M B) :
  keeps proj m → (∀ a, keeps proj (k a)) → keeps proj (bind m k).
Proof.
  intros Hm Hk w. unfold bind. specialize (Hm w).
  destruct (m w) as [[a|e] w1]; simpl in *; [| done].
  by rewrite Hk.
Qed.

Lemma keeps_deref {B} (proj : world → B) r : keeps proj (deref r).
Proof. intros w. unfold deref. by destruct (w_heap w !! r). Qed.

Lemma keeps_getattr {B} (proj : world → B) r a : keeps proj (getattr r a).
Proof.
  apply keeps_bind; [apply keeps_deref |]. intros o.
  destruct (o_fields o !! a); [apply keeps_ret | apply keeps_raise].
Qed.

Lemma keeps_getitem {B} (proj : world → B) r a : keeps proj (getitem r a).
Proof.
  apply keeps_bind; [apply keeps_deref |]. intros o.
  destruct (o_fields o !! a); [apply keeps_ret | apply keeps_raise].
Qed.

Lemma keeps_dict_getitem {B} (proj : world → B) d a : keeps proj (dict_getitem d a).
Proof. unfold dict_getitem. destruct (d !! a); [apply keeps_ret | apply keeps_raise]. Qed.

Lemma keeps_method {B} (proj : world → B) h a : keeps proj (method h a).
Proof. destruct h; [apply keeps_ret | apply keeps_raise]. Qed.

Lemma keeps__impl {B} classes (proj : world → B) c : keeps proj (_impl classes c).
Proof. intros w. unfold _impl. by destruct (w_bind w) as [|[?|]]. Qed.

Lemma keeps__impl_of {B} classes (proj : world → B) r : keeps proj (_impl_of classes r).
Proof. apply keeps_bind; [apply keeps_deref |]. intros o. apply keeps__impl. Qed.

#[global] Hint Resolve keeps_ret keeps_raise keeps_lift keeps_deref keeps_getattr
  keeps_getitem keeps_dict_getitem keeps_method keeps__impl keeps__impl_of : keeps.

(** A gateway call touches the binding and the trace, nothing else. *)
Lemma gateway_heap {A} c (op : database → result A * database) :
  keeps w_heap (gateway c op).
Proof.
  intros w. unfold gateway. destruct (w_bind w) as [|[db|]]; [done | | done].
  by destruct (op db).
Qed.

Lemma gateway_imap {A} c (op : database → result A * database) :
  keeps w_imap (gateway c op).
Proof.
  intros w. unfold gateway. destruct (w_bind w) as [|[db|]]; [done | | done].
  by destruct (op db).
Qed.

Lemma gateway_uow {A} c (op : database → result A * database) :
  keeps w_uow (gateway c op).
Proof.
  intros w. unfold gateway. destruct (w_bind w) as [|[db|]]; [done | | done].
  by destruct (op db).
Qed.

#[global] Hint Resolve gateway_heap gateway_imap gateway_uow : keeps.

Lemma gateway_memory {A} c (op : database → result A * database) :
  keeps memory (gateway c op).
Proof.
  intros w. unfold memory.
  by rewrite gateway_heap, gateway_imap, gateway_uow.
Qed.

#[global] Hint Resolve gateway_memory : keeps.

Ltac keeps_step :=
  first
    [ apply keeps_bind; [| intros ?]
    | progress eauto with keeps
    | match goal with
      | |- keeps _ (if ?b then _ else _) => destruct b
      | |- keeps _ (match ?x with _ => _ end) => destruct x
      end ].

Lemma increase_field_memory classes doc kw :
  keeps memory (increase_field classes doc kw).
Proof.
  unfold increase_field, coll_update. repeat keeps_step.
Qed.

(** ** [increase_field]: argument handling and frame *)

Section IncreaseFieldArguments.

Variable classes : cls → doc_class.

Lemma kw_dict_head key v (rest : kwargs) :
  kw_dict ((key, v) :: rest) !! key = Some v.
Proof. unfold kw_dict. simpl. apply lookup_insert_eq. Qed.

(** Everything [increase_field] does is determined by the first pair of
    its keyword arguments. *)
Lemma increase_field_cons doc key v (rest : kwargs) w :
  increase_field classes doc ((key, v) :: rest) w
  = if decide (v = VNone) then (Raise (ValueError key v), w)
    else increase_field_updates classes doc key v w.
Proof.
  unfold increase_field.
  change (((key, v) :: rest).*1) with (key :: rest.*1).
  rewrite (bind_ok (ret key) _ w key w) by done.
  rewrite (bind_ok (dict_getitem _ key) _ w v w)
    by (unfold dict_getitem; by rewrite kw_dict_head).
  by destruct (decide (v = VNone)).
Qed.

(** An update that does not upsert always succeeds. *)
Lemma update_op_ok name q u db :
  fst (update_op name q u false db) = Ok VAck.
Proof. unfold update_op. by destruct (find_first q (db_coll db name)). Qed.

Lemma nve_bind {A B} (m : M A) (k : A → M B) :
  never_value_error m → (∀ a, never_value_error (k a)) →
  never_value_error (bind m k).
Proof.
  intros Hm Hk w. unfold bind. specialize (Hm w).
  destruct (m w) as [[a|e] w1]; simpl in *; [apply Hk | done].
Qed.

Lemma nve_ret {A} (a : A) : never_value_error (ret a).
Proof. by intros w. Qed.

Lemma nve_deref r : never_value_error (deref r).
Proof. intros w. unfold deref. by destruct (w_heap w !! r). Qed.

Lemma nve_getattr r a : never_value_error (getattr r a).
Proof.
  apply nve_bind; [apply nve_deref |]. intros o w.
  by destruct (o_fields o !! a).
Qed.

Lemma nve_method h a : never_value_error (method h a).
Proof. intros w. by destruct h. Qed.

Lemma nve__impl_of r : never_value_error (_impl_of classes r).
Proof.
  apply nve_bind; [apply nve_deref |]. intros o w.
  unfold _impl. by destruct (w_bind w) as [|[?|]].
Qed.

Lemma nve_coll_update name q u : never_value_error (coll_update name q u false).
Proof.
  intros w. unfold coll_update, gateway.
  destruct (w_bind w) as [|[db|]]; [done | | done].
  pose proof (update_op_ok name q u db) as H.
  destruct (update_op name q u false db) as [r db']. simpl in *. by subst r.
Qed.

(** The only [ValueError] of [increase_field] is the one for a null
    value: the store's update and the attribute reads raise none. *)
Lemma nve_increase_field_updates doc key v :
  never_value_error (increase_field_updates classes doc key v).
Proof.
  unfold increase_field_updates.
  repeat first
    [ apply nve_ret | apply nve_deref | apply nve_getattr | apply nve_method
    | apply nve__impl_of | apply nve_coll_update
    | match goal with |- never_value_error (if ?b then _ else _) => destruct b end
    | apply nve_bind; [| intros ?] ].
Qed.

(** C5. [increase_field] called with a null value (as its first keyword
    pair) raises [ValueError] and leaves the whole world, the store and
    the trace of gateway calls included, exactly as it was: the error
    comes before any storage call.  And whenever [increase_field] raises
    a [ValueError], whatever its arguments, the world is as it was. *)
Theorem increase_field_null_value doc key (rest : kwargs) w :
  increase_field classes doc ((key, VNone) :: rest) w
  = (Raise (ValueError key VNone), w)
  ∧ ∀ (kw : kwargs) k' v',
      fst (increase_field classes doc kw w) = Raise (ValueError k' v') →
      snd (increase_field classes doc kw w) = w.
Proof.
  split; [rewrite increase_field_cons; by rewrite decide_True |].
  intros [| [key0 v0] kw] k' v' Hraise; [done |].
  rewrite increase_field_cons in *.
  destruct (decide (v0 = VNone)); [done |].
  pose proof (nve_increase_field_updates doc key0 v0 w) as H.
  by rewrite Hraise in H.
Qed.

(** C6. [increase_field] never touches the in-memory objects: the heap
    (so the fields of [doc] and of every other object), the identity map
    and the unit of work are the same after the call as before it,
    whether it returns or raises. *)
Theorem increase_field_leaves_memory doc (kw : kwargs) w :
  let w' := snd (increase_field classes doc kw w) in
  w_heap w' = w_heap w ∧ w_heap w' !! doc = w_heap w !! doc
  ∧ w_imap w' = w_imap w ∧ w_uow w' = w_uow w.
Proof.
  pose proof (increase_field_memory classes doc kw w) as H.
  unfold memory in H. injection H as H1 H2 H3.
  cbv zeta. by rewrite H1, H2, H3.
Qed.

End IncreaseFieldArguments.

(** ** Running the primitives *)

Lemma deref_ok r w o : w_heap w !! r = Some o → deref r w = (Ok o, w).
Proof. intros H. unfold deref. by rewrite H. Qed.

Lemma getattr_ok r a w o v :
  w_heap w !! r = Some o → o_fields o !! a = Some v → getattr r a w = (Ok v, w).
Proof.
  intros Ho Hv. unfold getattr. rewrite (bind_ok _ _ _ _ _ (deref_ok _ _ _ Ho)).
  by rewrite Hv.
Qed.

Lemma _impl_bound classes c w db :
  w_bind w = Bound (Some db) →
  _impl classes c w = (Ok (Some (mongometa_name (classes c))), w).
Proof. intros H. unfold _impl. by rewrite H. Qed.

Lemma _impl_of_bound classes doc w o db :
  w_heap w !! doc = Some o → w_bind w = Bound (Some db) →
  _impl_of classes doc w = (Ok (Some (mongometa_name (classes (o_cls o)))), w).
Proof.
  intros Ho Hb. unfold _impl_of. rewrite (bind_ok _ _ _ _ _ (deref_ok _ _ _ Ho)).
  by apply _impl_bound with db.
Qed.

Lemma method_some name a w : method (Some name) a w = (Ok name, w).
Proof. done. Qed.

Lemma gateway_bound {A} c (op : database → result A * database) w db :
  w_bind w = Bound (Some db) →
  gateway c op w = (fst (op db), called w (snd (op db)) [c]).
Proof. intros H. unfold gateway. rewrite H. by destruct (op db). Qed.

Lemma coll_update_bound name q u w db :
  w_bind w = Bound (Some db) →
  coll_update name q u false w
  = (Ok VAck, called w (snd (update_op name q u false db)) [CallUpdate name q u false]).
Proof.
  intros H. unfold coll_update. rewrite (gateway_bound _ _ _ _ H).
  by rewrite update_op_ok.
Qed.

Lemma coll_find_one_bound name q w db :
  w_bind w = Bound (Some db) →
  coll_find_one name q w
  = (Ok (find_first q (db_coll db name)), called w db [CallFindOne name q]).
Proof. intros H. unfold coll_find_one. by rewrite (gateway_bound _ _ _ _ H). Qed.

Lemma called_called w db1 cs1 db2 cs2 :
  called (called w db1 cs1) db2 cs2 = called w db2 (cs1 ++ cs2).
Proof. unfold called, set_calls, set_bind. simpl. by rewrite app_assoc. Qed.

Ltac run_with lem := erewrite bind_ok; [| eapply lem; eauto; done].

Section IncreaseFieldUpdates.

Variable classes : cls → doc_class.

(** [self._impl(doc).update(q, u, safe=True)] where [q] is built from
    [doc._id], for a document that has a primary key, on a bound
    session. *)
Lemma update_by_key doc w o k db (q : value → query) u :
  w_heap w !! doc = Some o → o_fields o !! "_id" = Some k →
  w_bind w = Bound (Some db) →
  let name := mongometa_name (classes (o_cls o)) in
  (let* h := _impl_of classes doc in
   let* name := method h "update" in
   let* k := getattr doc "_id" in
   let* _ := coll_update name (q k) u false in
   ret tt) w
  = (Ok tt, called w (snd (update_op name (q k) u false db))
              [CallUpdate name (q k) u false]).
Proof.
  intros Ho Hk Hb name.
  run_with _impl_of_bound.
  run_with method_some.
  run_with getattr_ok.
  run_with coll_update_bound.
  done.
Qed.

Lemma increase_field_updates_run doc key v w o k db :
  w_heap w !! doc = Some o → o_fields o !! "_id" = Some k →
  w_bind w = Bound (Some db) →
  let name := mongometa_name (classes (o_cls o)) in
  let in_doc := bool_decide (is_Some (o_fields o !! key)) in
  increase_field_updates classes doc key v w
  = (Ok tt, called w (after_increase in_doc name key v k db)
              (increase_calls in_doc name key v k)).
Proof.
  intros Ho Hk Hb name in_doc. unfold increase_field_updates.
  run_with deref_ok.
  unfold after_increase, after_init, increase_calls. subst in_doc.
  destruct (decide (is_Some (o_fields o !! key))) as [Hin | Hout].
  - rewrite (bool_decide_eq_true_2 _ Hin).
    run_with (@eq_refl (result unit * world)).
    by rewrite (update_by_key doc w o k db (lt_query key v)).
  - rewrite (bool_decide_eq_false_2 _ Hout).
    erewrite bind_ok; [| by apply (update_by_key doc w o k db (init_query key))].
    rewrite (update_by_key doc _ o k _ (lt_query key v)) by done.
    by rewrite called_called.
Qed.

(** C3 (as the code has it). For a document with a primary key on a bound
    session and a non-null value, [increase_field] issues: first, only
    when the field is absent from the IN-MEMORY document, an update whose
    filter is the key together with [field: None] (so the store sets the
    field only where it is null or missing); then, always, the update
    whose filter requires the stored value to be strictly below [v].
    Nothing else is sent, and the database is what the store makes of
    these updates. *)
Theorem increase_field_two_updates doc key v (rest : kwargs) w o k db :
  v ≠ VNone →
  w_heap w !! doc = Some o → o_fields o !! "_id" = Some k →
  w_bind w = Bound (Some db) →
  let name := mongometa_name (classes (o_cls o)) in
  let in_doc := bool_decide (is_Some (o_fields o !! key)) in
  let set_v := USet {[key := v]} in
  increase_field classes doc ((key, v) :: rest) w
  = (Ok tt, called w (after_increase in_doc name key v k db)
              (increase_calls in_doc name key v k))
  ∧ increase_calls in_doc name key v k
    = ((if in_doc then []
        else [CallUpdate name (<[key := CEq VNone]> {["_id" := CEq k]}) set_v false])
       ++ [CallUpdate name (<[key := CLt v]> {["_id" := CEq k]}) set_v false])%list.
Proof.
  intros Hv Ho Hk Hb name in_doc set_v. split; [| done].
  rewrite increase_field_cons, decide_False by done.
  by apply increase_field_updates_run.
Qed.

(** C10. With more than one keyword pair and a non-null first value,
    [increase_field] processes the first pair and nothing else.  For a
    document with a primary key on a bound session it returns normally,
    having issued exactly the updates of the first pair (the
    initialising one when the field is absent from the in-memory
    document, then the one guarded by [$lt]) and leaving in the database
    what the store makes of them; no other pair appears in any call.  In
    every world the run is the run on the first pair alone, and no
    [ValueError] is raised. *)
Theorem increase_field_ignores_extra_pairs doc key v (rest : kwargs) w :
  v ≠ VNone →
  (∀ o k db,
     w_heap w !! doc = Some o → o_fields o !! "_id" = Some k →
     w_bind w = Bound (Some db) →
     let name := mongometa_name (classes (o_cls o)) in
     let in_doc := bool_decide (is_Some (o_fields o !! key)) in
     let set_v := USet {[key := v]} in
     increase_field classes doc ((key, v) :: rest) w
     = (Ok tt,
        called w
          (snd (update_op name (<[key := CLt v]> {["_id" := CEq k]}) set_v false
                  (if in_doc then db
                   else snd (update_op name (<[key := CEq VNone]> {["_id" := CEq k]})
                               set_v false db))))
          ((if in_doc then []
            else [CallUpdate name (<[key := CEq VNone]> {["_id" := CEq k]})
                    set_v false])
           ++ [CallUpdate name (<[key := CLt v]> {["_id" := CEq k]}) set_v false])))
  ∧ increase_field classes doc ((key, v) :: rest) w
    = increase_field classes doc [(key, v)] w
  ∧ ∀ k' v', fst (increase_field classes doc ((key, v) :: rest) w)
             ≠ Raise (ValueError k' v').
Proof.
  intros Hv. split; [| split].
  - intros o k db Ho Hk Hb name in_doc set_v.
    rewrite increase_field_cons, decide_False by done.
    by rewrite (increase_field_updates_run doc key v w o k db Ho Hk Hb).
  - by rewrite !increase_field_cons.
  - intros k' v' Heq.
    assert (not_value_error (fst (increase_field classes doc ((key, v) :: rest) w))) as H;
      [| by rewrite Heq in H].
    rewrite increase_field_cons, decide_False by done.
    apply nve_increase_field_updates.
Qed.

End IncreaseFieldUpdates.

(** ** The write path: [save], [insert], [upsert] *)

Lemma keeps_set_fields r f : keeps store (set_fields r f).
Proof.
  apply keeps_bind; [apply keeps_deref |]. by intros o w.
Qed.

Lemma keeps_obj_update r d : keeps store (obj_update r d).
Proof.
  apply keeps_bind; [apply keeps_deref |]. intros o. apply keeps_set_fields.
Qed.

Lemma set_fields_ok r f w o :
  w_heap w !! r = Some o →
  set_fields r f w = (Ok tt, set_heap w (<[r := Obj (o_cls o) f]> (w_heap w))).
Proof. intros Ho. unfold set_fields. by run_with deref_ok. Qed.

Lemma obj_update_ok r d w o :
  w_heap w !! r = Some o →
  obj_update r d w
  = (Ok tt, set_heap w (<[r := Obj (o_cls o) (d ∪ o_fields o)]> (w_heap w))).
Proof.
  intros Ho. unfold obj_update. run_with deref_ok. by apply set_fields_ok.
Qed.

Lemma set_heap_lookup w r o x :
  w_heap w !! r = Some o → w_heap (set_heap w (<[r := x]> (w_heap w))) !! r = Some x.
Proof.
  intros Ho. simpl. apply list_lookup_insert_eq. by eapply lookup_lt_Some.
Qed.

Section WritePath.

Variable classes : cls → doc_class.
Variable make_safe_fields : bson → bson.

Abbreviation validated' := (validated classes make_safe_fields).
Abbreviation save' := (save classes make_safe_fields).
Abbreviation insert' := (insert classes make_safe_fields).
Abbreviation upsert' := (upsert classes make_safe_fields).

Lemma make_safe_ok doc w o :
  w_heap w !! doc = Some o →
  ∃ w1, make_safe make_safe_fields doc w = (Ok tt, w1)
        ∧ w_heap w1 !! doc = Some (Obj (o_cls o) (make_safe_fields (o_fields o)))
        ∧ store w1 = store w.
Proof.
  intros Ho. eexists. unfold make_safe. run_with deref_ok.
  rewrite (set_fields_ok _ _ _ _ Ho). split; [done |].
  split; [by eapply set_heap_lookup | done].
Qed.

(** The validator rejects the document: [validated] raises the
    validator's own exception; only the in-memory object was touched. *)
Lemma validated_raise doc w o e :
  w_heap w !! doc = Some o →
  checked (classes (o_cls o)) (make_safe_fields (o_fields o)) = Raise e →
  ∃ w1, validated' doc w = (Raise e, w1) ∧ store w1 = store w.
Proof.
  intros Ho He. destruct (make_safe_ok doc w o Ho) as (w1 & Hms & Ho1 & Hst).
  exists w1. split; [| done]. unfold validated.
  rewrite (bind_ok _ _ _ _ _ Hms). run_with deref_ok. simpl.
  apply bind_raise. unfold checked in He.
  destruct (mongometa_schema (classes (o_cls o))); [by rewrite He | done].
Qed.

(** The validator accepts it: the object takes the validated data over
    its (made safe) fields. *)
Lemma validated_ok doc w o data :
  w_heap w !! doc = Some o →
  checked (classes (o_cls o)) (make_safe_fields (o_fields o)) = Ok data →
  ∃ w1, validated' doc w = (Ok data, w1)
        ∧ w_heap w1 !! doc
          = Some (Obj (o_cls o) (data ∪ make_safe_fields (o_fields o)))
        ∧ store w1 = store w.
Proof.
  intros Ho Hd. destruct (make_safe_ok doc w o Ho) as (w1 & Hms & Ho1 & Hst).
  eexists. unfold validated.
  rewrite (bind_ok _ _ _ _ _ Hms). run_with deref_ok. simpl.
  erewrite bind_ok; cycle 1.
  { unfold checked in Hd.
    destruct (mongometa_schema (classes (o_cls o))); [by rewrite Hd |].
    by injection Hd as ->. }
  run_with obj_update_ok.
  split; [done |]. split; [by eapply set_heap_lookup | done].
Qed.

(** The hook of [save], when the class has one, rewrites the object. *)
Lemma save_hook_ok doc w o f1 :
  w_heap w !! doc = Some o →
  hooked (classes (o_cls o)) (o_fields o) = Ok f1 →
  ∃ w1, match mongometa_before_save (classes (o_cls o)) with
        | Some hook => run_hook hook doc
        | None => ret tt
        end w = (Ok tt, w1)
        ∧ w_heap w1 !! doc = Some (Obj (o_cls o) f1)
        ∧ store w1 = store w.
Proof.
  intros Ho Hh. unfold hooked in Hh.
  destruct (mongometa_before_save (classes (o_cls o))) as [hook|].
  - eexists. unfold run_hook. run_with deref_ok.
    erewrite bind_ok; [| unfold lift; by rewrite Hh].
    rewrite (set_fields_ok _ _ _ _ Ho).
    split; [done |]. split; [by eapply set_heap_lookup | done].
  - injection Hh as <-. exists w. by destruct o.
Qed.

(** C8. When the validator of the document's class raises, [save],
    [insert] and [upsert] raise that same exception, and the call has made
    no storage write: the binding (so the database) and the trace of
    gateway calls are as before.  [insert] and [upsert] present the
    document to the validator as it is (made safe); [save] presents it as
    its before-save hook, if the class has one, left it.  Each operation
    is taken with the document it validates: a hook that repairs or
    breaks the document changes what [save] does and nothing of what
    [insert] and [upsert] do. *)
Theorem validation_error_no_write doc w o validate e args spec :
  w_heap w !! doc = Some o →
  mongometa_schema (classes (o_cls o)) = Some validate →
  (validate (make_safe_fields (o_fields o)) = Raise e →
     (fst (insert' doc w) = Raise e ∧ store (snd (insert' doc w)) = store w)
     ∧ (fst (upsert' doc spec w) = Raise e
        ∧ store (snd (upsert' doc spec w)) = store w))
  ∧ (∀ f1, hooked (classes (o_cls o)) (o_fields o) = Ok f1 →
       validate (make_safe_fields f1) = Raise e →
       fst (save' doc args w) = Raise e
       ∧ store (snd (save' doc args w)) = store w).
Proof.
  intros Ho Hs. split.
  - intros He.
    assert (checked (classes (o_cls o)) (make_safe_fields (o_fields o)) = Raise e)
      as Hc by (unfold checked; by rewrite Hs).
    destruct (validated_raise doc w o e Ho Hc) as (w1 & Hv & Hst).
    split.
    + unfold insert. by rewrite (bind_raise _ _ _ _ _ Hv).
    + unfold upsert. by rewrite (bind_raise _ _ _ _ _ Hv).
  - intros f1 Hh He1.
    destruct (save_hook_ok doc w o f1 Ho Hh) as (wh & Hrun & Hoh & Hsth).
    assert (checked (classes (o_cls o)) (make_safe_fields f1) = Raise e)
      as Hc1 by (unfold checked; by rewrite Hs).
    destruct (validated_raise doc wh (Obj (o_cls o) f1) e Hoh Hc1) as (w2 & Hv2 & Hst2).
    unfold save. run_with deref_ok.
    rewrite (bind_ok _ _ _ _ _ Hrun).
    rewrite (bind_raise _ _ _ _ _ Hv2). simpl. split; [done | congruence].
Qed.

End WritePath.

(** ** The store: queries and updates on a collection *)

Lemma matches_spec q (r : bson) :
  matches q r = true ↔ ∀ f c, q !! f = Some c → matches_cond (r !! f) c = true.
Proof. unfold matches. by rewrite bool_decide_eq_true. Qed.

(** A query on the primary key alone selects by [rid]. *)
Lemma matches_id k (r : bson) : matches {["_id" := CEq k]} r = true ↔ rid r = k.
Proof.
  rewrite matches_spec. unfold rid. split.
  - intros H. specialize (H "_id" (CEq k) (lookup_singleton_eq _ _)).
    simpl in H. by apply bool_decide_eq_true in H.
  - intros H f c Hf. apply lookup_singleton_Some in Hf as [<- <-].
    simpl. by apply bool_decide_eq_true.
Qed.

(** A query on the primary key and one more field. *)
Lemma matches_id_and key cnd k (r : bson) :
  key ≠ "_id" →
  matches (<[key := cnd]> {["_id" := CEq k]}) r = true
  ↔ rid r = k ∧ matches_cond (r !! key) cnd = true.
Proof.
  intros Hne. rewrite matches_spec. split.
  - intros H. split.
    + assert ((<[key := cnd]> {["_id" := CEq k]} : query) !! "_id" = Some (CEq k)) as Hl
        by (rewrite lookup_insert_ne by done; apply lookup_singleton_eq).
      specialize (H _ _ Hl). simpl in H. by apply bool_decide_eq_true in H.
    + apply H. apply lookup_insert_eq.
  - intros [Hid Hc] f c Hf. apply lookup_insert_Some in Hf as [[<- <-] | [_ Hf]]; [done |].
    apply lookup_singleton_Some in Hf as [<- <-].
    simpl. by apply bool_decide_eq_true.
Qed.

Lemma find_first_none q c :
  find_first q c = None ↔ Forall (λ r, matches q r = false) c.
Proof.
  induction c as [| r c IH]; simpl; [by split; [constructor |] |].
  destruct (matches q r) eqn:Hm.
  - split; [done |]. intros H. apply Forall_cons in H as [H _]. congruence.
  - rewrite IH. split; [by constructor |]. by intros [_ ?]%Forall_cons.
Qed.

Lemma find_first_some q c r :
  find_first q c = Some r → r ∈ c ∧ matches q r = true.
Proof.
  induction c as [| x c IH]; simpl; [done |].
  destruct (matches q x) eqn:Hm.
  - intros [= <-]. split; [apply list_elem_of_here | done].
  - intros H. destruct (IH H) as [? ?]. split; [by apply list_elem_of_further | done].
Qed.

Lemma update_first_none q u c :
  find_first q c = None → update_first q u c = c.
Proof.
  induction c as [| r c IH]; simpl; [done |].
  destruct (matches q r); [done |]. intros H. by rewrite IH.
Qed.

(** The first selected record sits between records that are not
    selected before it. *)
Lemma find_first_middle q l1 r l2 :
  Forall (λ x, matches q x = false) l1 → matches q r = true →
  find_first q (l1 ++ r :: l2) = Some r.
Proof.
  intros H1 Hr. induction H1 as [| x l1 Hx _ IH]; simpl; [by rewrite Hr |].
  by rewrite Hx.
Qed.

Lemma update_first_middle q u l1 r l2 :
  Forall (λ x, matches q x = false) l1 → matches q r = true →
  update_first q u (l1 ++ r :: l2) = l1 ++ apply_update u r :: l2.
Proof.
  intros H1 Hr. induction H1 as [| x l1 Hx _ IH]; simpl; [by rewrite Hr |].
  by rewrite Hx, IH.
Qed.

(** A [$set] rewrites at most one record, in place, and only the fields
    it names. *)
Lemma update_first_set_length q vals c :
  length (update_first q (USet vals) c) = length c.
Proof.
  induction c as [| r c IH]; simpl; [done |].
  destruct (matches q r); simpl; [done | by rewrite IH].
Qed.

Lemma update_first_set_frame q (vals : bson) c i (r : bson) :
  c !! i = Some r →
  ∃ r' : bson, update_first q (USet vals) c !! i = Some r'
        ∧ ∀ f, vals !! f = None → r' !! f = r !! f.
Proof.
  revert i. induction c as [| x c IH]; intros i Hi; [done |]. simpl.
  destruct (matches q x).
  - destruct i as [| i]; simpl in *.
    + injection Hi as ->. eexists. split; [done |]. intros f Hf.
      simpl. by rewrite lookup_union_r.
    + eauto.
  - destruct i as [| i]; simpl in *; [eauto | by apply IH].
Qed.

Lemma db_coll_set_eq db name c : db_coll (db_set_coll db name c) name = c.
Proof. unfold db_coll, db_set_coll. simpl. by rewrite lookup_insert_eq. Qed.

Lemma db_coll_set_ne db name n c :
  n ≠ name → db_coll (db_set_coll db name c) n = db_coll db n.
Proof. intros H. unfold db_coll, db_set_coll. simpl. by rewrite lookup_insert_ne. Qed.

(** A non-upserting update rewrites its own collection with
    [update_first] and leaves the others alone. *)
Lemma update_op_coll name q u db :
  db_coll (snd (update_op name q u false db)) name
  = update_first q u (db_coll db name).
Proof.
  unfold update_op. destruct (find_first q (db_coll db name)) eqn:Hf; simpl.
  - apply db_coll_set_eq.
  - by rewrite update_first_none.
Qed.

Lemma update_op_other name q u db n :
  n ≠ name → db_coll (snd (update_op name q u false db)) n = db_coll db n.
Proof.
  intros Hn. unfold update_op. destruct (find_first q (db_coll db name)); simpl; [| done].
  by apply db_coll_set_ne.
Qed.

Section PartialSave.

Variable classes : cls → doc_class.
Variable make_safe_fields : bson → bson.

(** [dict((arg, data[arg]) for arg in args)] when every named field is
    in [data]: exactly the named fields, with the values [data] has. *)
Lemma pick_ok (data : bson) args w :
  Forall (λ a, is_Some (data !! a)) args →
  ∃ values : bson, pick data args w = (Ok values, w)
    ∧ ∀ f, values !! f = if decide (f ∈ args) then data !! f else None.
Proof.
  intros Hall. unfold pick.
  cut (∃ kvs : list (string * value),
         mapM (λ a, let* v := dict_getitem data a in ret (a, v)) args w = (Ok kvs, w)
         ∧ ∀ f, (list_to_map kvs : bson) !! f
                = if decide (f ∈ args) then data !! f else None).
  { intros (kvs & Hrun & Hl). exists (list_to_map kvs).
    by rewrite (bind_ok _ _ _ _ _ Hrun). }
  induction Hall as [| a args [v Hv] _ (kvs & Hrun & Hl)].
  - exists []. split; [done |]. intros f. rewrite decide_False; [done |].
    apply not_elem_of_nil.
  - exists ((a, v) :: kvs). split.
    + simpl. erewrite bind_ok; cycle 1.
      { unfold dict_getitem. rewrite Hv. reflexivity. }
      by rewrite (bind_ok _ _ _ _ _ Hrun).
    + intros f. simpl. destruct (decide (f = a)) as [-> | Hne].
      * rewrite lookup_insert_eq, decide_True; [done | apply list_elem_of_here].
      * rewrite lookup_insert_ne, Hl by done.
        destruct (decide (f ∈ args)) as [Hin | Hout].
        -- rewrite decide_True; [done | by apply list_elem_of_further].
        -- rewrite decide_False; [done |]. by intros [? | ?]%elem_of_cons.
Qed.

(** C7. Partial save.  For a document that has a primary key [k] once
    the hook and the validator have run, and whose validated data holds
    every named field, [save(doc, f1, ..., fn)] with at least one name
    returns normally after exactly one gateway call: an update selecting
    by [{_id: k}] with a [$set] of the named fields, taken from the
    validated data.  In the store that update keeps every collection's
    records in place and changes, in the document's own collection, at
    most the named fields; every other field of every stored record is as
    before. *)
Theorem partial_save_isolation doc args w o f1 data k db :
  args ≠ [] →
  w_heap w !! doc = Some o →
  w_bind w = Bound (Some db) →
  hooked (classes (o_cls o)) (o_fields o) = Ok f1 →
  checked (classes (o_cls o)) (make_safe_fields f1) = Ok data →
  (data ∪ make_safe_fields f1) !! "_id" = Some k →
  Forall (λ a, is_Some (data !! a)) args →
  let name := mongometa_name (classes (o_cls o)) in
  ∃ (values : bson) w' db',
    save classes make_safe_fields doc args w = (Ok tt, w')
    ∧ (∀ f, values !! f = if decide (f ∈ args) then data !! f else None)
    ∧ w_calls w' = w_calls w ++ [CallUpdate name {["_id" := CEq k]} (USet values) false]
    ∧ w_bind w' = Bound (Some db')
    ∧ db' = snd (update_op name {["_id" := CEq k]} (USet values) false db)
    ∧ length (db_coll db' name) = length (db_coll db name)
    ∧ (∀ i (r : bson), db_coll db name !! i = Some r →
         ∃ r' : bson, db_coll db' name !! i = Some r'
                ∧ ∀ f, f ∉ args → r' !! f = r !! f)
    ∧ (∀ n, n ≠ name → db_coll db' n = db_coll db n).
Proof.
  intros Hargs Ho Hb Hh Hc Hk Hall name.
  destruct (save_hook_ok classes doc w o f1 Ho Hh) as (w1 & Hrun & Ho1 & Hst1).
  destruct (validated_ok classes make_safe_fields doc w1 _ data Ho1 Hc)
    as (w2 & Hval & Ho2 & Hst2).
  simpl in Ho2, Hval.
  destruct (pick_ok data args w2 Hall) as (values & Hpick & Hvalues).
  assert (w_bind w2 = Bound (Some db) ∧ w_calls w2 = w_calls w) as [Hb2 Hc2].
  { unfold store in *. split; congruence. }
  set (q := {["_id" := CEq k]} : query).
  set (db' := snd (update_op name q (USet values) false db)).
  exists values, (called w2 db' [CallUpdate name q (USet values) false]), db'.
  split; [| split; [done |]].
  - unfold save. run_with deref_ok.
    rewrite (bind_ok _ _ _ _ _ Hrun). rewrite (bind_ok _ _ _ _ _ Hval).
    destruct args as [| a args']; [done |].
    erewrite bind_ok; cycle 1.
    { rewrite (bind_ok _ _ _ _ _ Hpick).
      run_with _impl_of_bound. run_with method_some.
      run_with getattr_ok. simpl.
      by apply coll_update_bound. }
    run_with deref_ok. simpl.
    rewrite Hk. simpl. done.
  - split; [simpl; by rewrite Hc2 |]. split; [done |]. split; [done |].
    subst db'. rewrite update_op_coll.
    split; [apply update_first_set_length |]. split.
    + intros i r Hi.
      destruct (update_first_set_frame q values _ i r Hi) as (r' & Hr' & Hfr).
      exists r'. split; [done |]. intros f Hf. apply Hfr.
      by rewrite Hvalues, decide_False.
    + intros n Hn. by apply update_op_other.
Qed.

End PartialSave.

(** ** The read path: [get] and [fresh_object] *)

Lemma kw_dict_id k : kw_dict [("_id", k)] = {["_id" := k]}.
Proof. unfold kw_dict. simpl. apply insert_empty. Qed.

Lemma eq_query_id k : eq_query (kw_dict [("_id", k)]) = {["_id" := CEq k]}.
Proof. rewrite kw_dict_id. unfold eq_query. apply map_fmap_singleton. Qed.

Lemma keys_id (kw : kwargs) : kw.*1 = ["_id"] → ∃ k, kw = [("_id", k)].
Proof.
  destruct kw as [| [a k] [| ? ?]]; simpl; intros H; try done.
  injection H as ->. by exists k.
Qed.

Section ReadPath.

Variable classes : cls → doc_class.

Lemma keeps_fresh_object c b : keeps store (fresh_object classes c b).
Proof.
  unfold fresh_object, imap_get, imap_save, uow_save_clean, uow_save, alloc.
  repeat first
    [ progress eauto using keeps_obj_update with keeps
    | match goal with
      | |- keeps _ (match ?x with _ => _ end) => destruct x
      | |- keeps _ (λ w, _) => by intros ?
      end
    | apply keeps_bind; [| intros ?] ].
Qed.

(** [get] by primary key with the instance in the identity map: the
    instance is returned and the world is untouched. *)
Lemma get_hit c k w r :
  w_imap w !! (c, k) = Some r →
  get classes c [("_id", k)] w = (Ok (Some r), w).
Proof.
  intros H. unfold get. rewrite decide_True by done.
  erewrite bind_ok; cycle 1.
  { erewrite bind_ok; [| unfold dict_getitem; by rewrite kw_dict_id, lookup_singleton_eq].
    unfold imap_get. by rewrite H. }
  done.
Qed.

(** Otherwise [get] goes to the store. *)
Lemma get_miss c (kw : kwargs) w db :
  w_bind w = Bound (Some db) →
  (∀ k, kw = [("_id", k)] → w_imap w !! (c, k) = None) →
  let name := mongometa_name (classes c) in
  let q := eq_query (kw_dict kw) in
  get classes c kw w
  = match find_first q (db_coll db name) with
    | None => (Ok None, called w db [CallFindOne name q])
    | Some b =>
        (let* r := fresh_object classes c b in ret (Some r))
          (called w db [CallFindOne name q])
    end.
Proof.
  intros Hb Hmiss name q. unfold get.
  erewrite bind_ok; cycle 1.
  { destruct (decide (kw.*1 = ["_id"])) as [Hk | Hk]; [| done].
    destruct (keys_id kw Hk) as [k ->].
    erewrite bind_ok; [| unfold dict_getitem; by rewrite kw_dict_id, lookup_singleton_eq].
    unfold imap_get. by rewrite (Hmiss k). }
  cbv beta iota. run_with _impl_bound. run_with method_some.
  run_with coll_find_one_bound. fold name q.
  by destruct (find_first q (db_coll db name)).
Qed.

(** C9. [get] on a bound session.  With a filter that is exactly
    [{_id: k}] and an instance for [k] in the identity map, the cached
    instance is returned and the world, the trace of gateway calls
    included, is untouched.  On a miss, or with any other filter, exactly
    one gateway call is made, a [find_one] with the filter, and when it
    selects no record [get] returns [None] (it does not raise). *)
Theorem get_cached_or_find_one c (kw : kwargs) w db :
  w_bind w = Bound (Some db) →
  let name := mongometa_name (classes c) in
  let q := eq_query (kw_dict kw) in
  (∀ k r, kw = [("_id", k)] → w_imap w !! (c, k) = Some r →
     get classes c kw w = (Ok (Some r), w))
  ∧ ((∀ k, kw = [("_id", k)] → w_imap w !! (c, k) = None) →
     w_calls (snd (get classes c kw w)) = w_calls w ++ [CallFindOne name q]
     ∧ (find_first q (db_coll db name) = None →
        get classes c kw w = (Ok None, called w db [CallFindOne name q]))).
Proof.
  intros Hb name q. split.
  - intros k r -> Hr. by apply get_hit.
  - intros Hmiss. rewrite (get_miss c kw w db Hb Hmiss). fold name q.
    destruct (find_first q (db_coll db name)) as [b |]; [| done].
    split; [| done].
    assert (keeps store (let* r := fresh_object classes c b in ret (Some r))) as Hk.
    { apply keeps_bind; [apply keeps_fresh_object | intros ?; apply keeps_ret]. }
    specialize (Hk (called w db [CallFindOne name q])).
    unfold store in Hk. by injection Hk as _ ->.
Qed.

(** [fresh_object] on a record whose key has a cached instance: the
    instance is refreshed in place and returned; no object is created. *)
Lemma fresh_object_cached c (b : bson) k w r o (f : bson) :
  keeps_id (classes c) →
  b !! "_id" = Some k → w_imap w !! (c, k) = Some r →
  w_heap w !! r = Some o →
  make (classes c) DefaultFlags b = Ok f →
  ∃ w', fresh_object classes c b w = (Ok r, w')
        ∧ w_heap w' = <[r := Obj (o_cls o) (f ∪ o_fields o)]> (w_heap w).
Proof.
  intros Hid Hb Hr Ho Hf. eexists. unfold fresh_object. rewrite Hb.
  erewrite bind_ok; [| unfold imap_get; by rewrite Hr].
  cbv beta iota.
  erewrite bind_ok; cycle 1.
  { erewrite bind_ok; [| unfold lift; by rewrite Hf].
    run_with obj_update_ok. done. }
  pose proof (set_heap_lookup w r o (Obj (o_cls o) (f ∪ o_fields o)) Ho) as Ho'.
  erewrite bind_ok; cycle 1.
  { unfold imap_save. run_with deref_ok.
    erewrite bind_ok; cycle 1.
    { eapply getattr_ok; [exact Ho' |]. simpl.
      apply lookup_union_Some_l. rewrite (Hid _ _ _ Hf). exact Hb. }
    done. }
  by split.
Qed.

(** [fresh_object] on a record whose key has no cached instance: when it
    returns, the object it made is registered under that key. *)
Lemma fresh_object_new c (b : bson) w r w1 :
  keeps_id (classes c) →
  w_imap w !! (c, rid b) = None →
  fresh_object classes c b w = (Ok r, w1) →
  w_imap w1 !! (c, rid b) = Some r ∧ r = length (w_heap w).
Proof.
  intros Hid Hmiss Hrun. unfold fresh_object in Hrun.
  assert ((match b !! "_id" with
           | Some k => imap_get c k
           | None => ret None
           end) w = (Ok None, w)) as Hc.
  { unfold rid in Hmiss. destruct (b !! "_id"); [| done].
    unfold imap_get. simpl in Hmiss. by rewrite Hmiss. }
  rewrite (bind_ok _ _ _ _ _ Hc) in Hrun. cbv beta iota in Hrun.
  destruct (make (classes c) (Flags false true) b) as [f | e] eqn:Hf; cycle 1.
  { erewrite bind_raise in Hrun; [done |]. by apply bind_raise. }
  pose proof (Hid _ _ _ Hf) as Hfid.
  erewrite bind_ok in Hrun; cycle 1.
  { erewrite bind_ok; reflexivity. }
  assert (w_heap (set_heap w (w_heap w ++ [Obj c f])) !! length (w_heap w)
          = Some (Obj c f)) as Hnew.
  { simpl. by apply list_lookup_middle. }
  unfold imap_save in Hrun.
  destruct (b !! "_id") as [k |] eqn:Hb.
  - erewrite bind_ok in Hrun; cycle 1.
    { run_with deref_ok. run_with getattr_ok. done. }
    unfold uow_save_clean, uow_save, bind, ret in Hrun. simpl in Hrun.
    injection Hrun as <- <-. simpl. unfold rid. rewrite Hb. simpl.
    by rewrite lookup_insert_eq.
  - erewrite bind_raise in Hrun; [done |].
    run_with deref_ok. apply bind_raise.
    unfold getattr. run_with deref_ok. simpl. by rewrite Hfid.
Qed.

(** After a [get] by primary key that returned an instance, the identity
    map holds that instance under the key. *)
Lemma get_registers c k w r w1 :
  keeps_id (classes c) →
  get classes c [("_id", k)] w = (Ok (Some r), w1) →
  w_imap w1 !! (c, k) = Some r.
Proof.
  intros Hid Hrun.
  destruct (w_imap w !! (c, k)) as [r0 |] eqn:Hr0.
  { rewrite (get_hit c k w r0 Hr0) in Hrun. by injection Hrun as <- <-. }
  destruct (w_bind w) as [| [db |]] eqn:Hb.
  - unfold get in Hrun. rewrite decide_True in Hrun by done.
    erewrite bind_ok in Hrun; cycle 1.
    { erewrite bind_ok; [| unfold dict_getitem; by rewrite kw_dict_id, lookup_singleton_eq].
      unfold imap_get. by rewrite Hr0. }
    cbv beta iota in Hrun.
    erewrite bind_raise in Hrun; [done |]. unfold _impl. by rewrite Hb.
  - rewrite (get_miss c _ w db Hb) in Hrun; cycle 1.
    { by intros k' [= <-]. }
    rewrite eq_query_id in Hrun.
    destruct (find_first _ _) as [b |] eqn:Hfind; [| done].
    apply find_first_some in Hfind as [_ Hm]. apply matches_id in Hm.
    unfold bind in Hrun.
    destruct (fresh_object classes c b _) as [[r' | e] w'] eqn:Hfresh; [| done].
    injection Hrun as <- <-.
    apply fresh_object_new in Hfresh as [Hreg _]; [| done | by rewrite Hm].
    by rewrite Hm in Hreg.
  - unfold get in Hrun. rewrite decide_True in Hrun by done.
    erewrite bind_ok in Hrun; cycle 1.
    { erewrite bind_ok; [| unfold dict_getitem; by rewrite kw_dict_id, lookup_singleton_eq].
      unfold imap_get. by rewrite Hr0. }
    cbv beta iota in Hrun.
    erewrite bind_ok in Hrun; [| unfold _impl; by rewrite Hb].
    by erewrite bind_raise in Hrun.
Qed.

(** C1 (as the code has it). For a class whose constructor keeps the
    primary key: if [get(T, _id=K)] returns an instance, and the identity
    map entry of (T, K) is still what that call left when [get(T, _id=K)]
    is called again, the second call returns the very same instance, and
    does so from the identity map, leaving the world (the trace of gateway
    calls included) untouched.  And whenever [fresh_object] materialises
    a record whose key has a cached instance, it refreshes that instance
    in place and returns it: the heap keeps its size, no duplicate is
    made. *)
Theorem get_same_instance c k :
  keeps_id (classes c) →
  (∀ w r1 w1 w1' r2 w2,
     get classes c [("_id", k)] w = (Ok (Some r1), w1) →
     w_imap w1' !! (c, k) = w_imap w1 !! (c, k) →
     get classes c [("_id", k)] w1' = (Ok (Some r2), w2) →
     r2 = r1 ∧ w2 = w1')
  ∧ (∀ w (b : bson) r o (f : bson),
       b !! "_id" = Some k → w_imap w !! (c, k) = Some r →
       w_heap w !! r = Some o →
       make (classes c) DefaultFlags b = Ok f →
       ∃ w', fresh_object classes c b w = (Ok r, w')
             ∧ w_heap w' = <[r := Obj (o_cls o) (f ∪ o_fields o)]> (w_heap w)
             ∧ length (w_heap w') = length (w_heap w)).
Proof.
  intros Hid. split.
  - intros w r1 w1 w1' r2 w2 H1 Hsame H2.
    apply (get_registers c k w r1 w1 Hid) in H1.
    rewrite <- Hsame in H1.
    rewrite (get_hit c k w1' r1 H1) in H2. by injection H2 as <- <-.
  - intros w b r o f Hb Hr Ho Hf.
    destruct (fresh_object_cached c b k w r o f Hid Hb Hr Ho Hf) as (w' & Hrun & Hheap).
    exists w'. split; [done |]. split; [done |].
    rewrite Hheap. apply length_insert.
Qed.



End ReadPath.

(** ** Sequential [increase_field] calls *)

Lemma unique_sole c k r : unique_ids c → r ∈ c → rid r = k → sole c k r.
Proof.
  intros Hu Hr Hk. apply list_elem_of_split in Hr as (l1 & l2 & ->).
  exists l1, l2. split; [done |]. split; [done |].
  unfold unique_ids in Hu. rewrite fmap_app, fmap_cons in Hu.
  apply NoDup_app in Hu as (_ & H1 & H2). apply NoDup_cons in H2 as [H2 _].
  split; apply Forall_forall; intros x Hx Hxk.
  - apply (H1 (rid x)); [by apply list_elem_of_fmap_2 |].
    rewrite Hxk, <- Hk. apply list_elem_of_here.
  - apply H2. rewrite Hk, <- Hxk. by apply list_elem_of_fmap_2.
Qed.

Lemma stored_sole db name k r :
  unique_ids (db_coll db name) → stored db name k = Some r →
  sole (db_coll db name) k r.
Proof.
  intros Hu Hs. apply find_first_some in Hs as [Hin Hm].
  apply matches_id in Hm. by apply unique_sole.
Qed.

Lemma sole_stored db name k r : sole (db_coll db name) k r → stored db name k = Some r.
Proof.
  intros (l1 & l2 & Hc & Hr & H1 & _). unfold stored. rewrite Hc.
  apply find_first_middle; [| by apply matches_id].
  eapply Forall_impl; [exact H1 |]. intros x Hx. simpl.
  destruct (matches _ x) eqn:Hm; [| done]. by apply matches_id in Hm.
Qed.

Lemma rid_insert key v (r : bson) : key ≠ "_id" → rid (<[key := v]> r) = rid r.
Proof. intros H. unfold rid. by rewrite lookup_insert_ne. Qed.

Lemma update_sole key cnd v k c r :
  key ≠ "_id" → sole c k r →
  let q : query := <[key := cnd]> {["_id" := CEq k]} in
  sole (update_first q (USet {[key := v]}) c) k (set_if cnd key v r)
  ∧ (matches_cond (r !! key) cnd = false → find_first q c = None).
Proof.
  intros Hne (l1 & l2 & -> & Hr & H1 & H2) q.
  assert (∀ l, Forall (λ x, rid x ≠ k) l → Forall (λ x, matches q x = false) l) as Hno.
  { intros l Hl. eapply Forall_impl; [exact Hl |]. intros x Hx. simpl.
    destruct (matches q x) eqn:Hm; [| done].
    by apply matches_id_and in Hm as [? _]. }
  unfold set_if. destruct (matches_cond (r !! key) cnd) eqn:Hc.
  - split; [| done].
    rewrite update_first_middle; [| by apply Hno | by apply matches_id_and].
    simpl. rewrite <- insert_union_singleton_l.
    exists l1, l2. by rewrite rid_insert.
  - assert (find_first q (l1 ++ r :: l2) = None) as Hnone.
    { apply find_first_none. apply Forall_app. split; [by apply Hno |].
      constructor; [| by apply Hno].
      destruct (matches q r) eqn:Hm; [| done].
      apply matches_id_and in Hm as [_ Hm]; [congruence | done]. }
    split; [| done]. rewrite update_first_none by done. by exists l1, l2.
Qed.

Lemma foldl_max_spec (vs : list Z) (m : Z) :
  foldl Z.max m vs ∈ m :: vs ∧ Forall (λ x, (x <= foldl Z.max m vs)%Z) (m :: vs).
Proof.
  revert m. induction vs as [| v vs IH]; intros m; simpl.
  - split; [apply list_elem_of_here | by constructor].
  - destruct (IH (Z.max m v)) as [Hin Hall].
    apply Forall_cons in Hall as [Hm Hall]. split.
    + apply elem_of_cons in Hin as [Heq | Hin].
      * rewrite Heq. destruct (Z.max_spec m v) as [[_ ->] | [_ ->]].
        -- apply list_elem_of_further, list_elem_of_here.
        -- apply list_elem_of_here.
      * by do 2 apply list_elem_of_further.
    + constructor; [lia |]. constructor; [lia | done].
Qed.

Section SequentialIncrease.

Variable classes : cls → doc_class.

Variables (doc : nat) (o : obj) (k : value) (key : string).
Hypothesis doc_id : o_fields o !! "_id" = Some k.
Hypothesis key_not_id : key ≠ "_id".

Let name := mongometa_name (classes (o_cls o)).

(** One call, seen from the stored record. *)
Lemma increase_field_stored w r v :
  tracked classes doc o k w r →
  let in_doc := bool_decide (is_Some (o_fields o !! key)) in
  let r1 := if in_doc then r else set_if (CEq VNone) key (VInt v) r in
  ∃ w', increase_field classes doc [(key, VInt v)] w = (Ok tt, w')
        ∧ tracked classes doc o k w' (set_if (CLt (VInt v)) key (VInt v) r1).
Proof.
  intros (Ho & db & Hb & Hsole) in_doc r1.
  eexists. split.
  { rewrite increase_field_cons, decide_False by done.
    by apply (increase_field_updates_run classes doc key (VInt v) w o k db). }
  split; [done |]. eexists. split; [done |]. fold name in_doc.
  unfold after_increase, after_init. rewrite update_op_coll.
  apply update_sole; [done |]. subst r1. destruct in_doc; [done |].
  rewrite update_op_coll. by apply update_sole.
Qed.

(** A value that does not exceed the stored one: the database is left
    exactly as it is. *)
Lemma increase_field_smaller w r s v db :
  w_heap w !! doc = Some o → w_bind w = Bound (Some db) →
  sole (db_coll db name) k r →
  r !! key = Some (VInt s) → (v <= s)%Z →
  ∃ w', increase_field classes doc [(key, VInt v)] w = (Ok tt, w')
        ∧ w_bind w' = Bound (Some db).
Proof.
  intros Ho Hb Hsole Hr Hle. eexists. split.
  { rewrite increase_field_cons, decide_False by done.
    by apply (increase_field_updates_run classes doc key (VInt v) w o k db). }
  simpl. do 2 f_equal. fold name.
  assert (∀ cnd, matches_cond (r !! key) cnd = false →
            snd (update_op name (<[key := cnd]> {["_id" := CEq k]})
                   (USet {[key := VInt v]}) false db) = db) as Hsame.
  { intros cnd Hc. unfold update_op.
    destruct (update_sole key cnd (VInt v) k _ r key_not_id Hsole) as [_ Hnone].
    by rewrite (Hnone Hc). }
  assert (after_init (bool_decide (is_Some (o_fields o !! key))) name key (VInt v) k db = db)
    as Hinit.
  { unfold after_init. destruct (bool_decide _); [done |].
    apply Hsame. by rewrite Hr. }
  unfold after_increase. rewrite Hinit. apply Hsame.
  rewrite Hr. simpl. by apply Z.ltb_ge.
Qed.

Hypothesis key_not_in_doc : o_fields o !! key = None.

(** The first call on a record without the field stores the value. *)
Lemma increase_field_first w r v :
  tracked classes doc o k w r → r !! key = None →
  ∃ w' r', increase_field classes doc [(key, VInt v)] w = (Ok tt, w')
           ∧ tracked classes doc o k w' r' ∧ r' !! key = Some (VInt v).
Proof.
  intros Ht Hr. destruct (increase_field_stored w r v Ht) as (w' & Hrun & Ht').
  exists w'. eexists. split; [done |]. split; [exact Ht' |].
  rewrite key_not_in_doc. rewrite bool_decide_eq_false_2 by (by intros [? ?]).
  unfold set_if at 2. rewrite Hr. simpl.
  unfold set_if. rewrite lookup_insert_eq. simpl. rewrite Z.ltb_irrefl.
  apply lookup_insert_eq.
Qed.

(** A later call stores the larger of the stored and the new value. *)
Lemma increase_field_next w r m v :
  tracked classes doc o k w r → r !! key = Some (VInt m) →
  ∃ w' r', increase_field classes doc [(key, VInt v)] w = (Ok tt, w')
           ∧ tracked classes doc o k w' r' ∧ r' !! key = Some (VInt (Z.max m v)).
Proof.
  intros Ht Hr. destruct (increase_field_stored w r v Ht) as (w' & Hrun & Ht').
  exists w'. eexists. split; [done |]. split; [exact Ht' |].
  rewrite key_not_in_doc. rewrite bool_decide_eq_false_2 by (by intros [? ?]).
  unfold set_if at 2. rewrite Hr. simpl.
  unfold set_if. rewrite Hr. simpl.
  destruct (Z.ltb_spec m v).
  - rewrite lookup_insert_eq. do 2 f_equal. lia.
  - rewrite Hr. do 2 f_equal. lia.
Qed.

Lemma increases_next vs : ∀ w r m,
  tracked classes doc o k w r → r !! key = Some (VInt m) →
  ∃ w' r', increases classes doc key vs w = (Ok tt, w')
           ∧ tracked classes doc o k w' r' ∧ r' !! key = Some (VInt (foldl Z.max m vs)).
Proof.
  induction vs as [| v vs IH]; intros w r m Ht Hr.
  - exists w, r. by split.
  - destruct (increase_field_next w r m v Ht Hr) as (w1 & r1 & Hrun & Ht1 & Hr1).
    destruct (IH w1 r1 _ Ht1 Hr1) as (w' & r' & Hrun' & Ht' & Hr').
    exists w', r'. split; [| done]. simpl. by rewrite (bind_ok _ _ _ _ _ Hrun).
Qed.

End SequentialIncrease.

(** C4 (as the code has it). Take a document with a primary key, on a
    bound session whose collection has unique keys and holds a record for
    the document in which the field is absent, the field being absent
    from the IN-MEMORY document too.  Then every non-empty sequence of
    calls [increase_field(doc, field=i)] with integer values returns
    normally and leaves the maximum of the submitted values in the stored
    record.  And in any later state of that store, a call whose value does
    not exceed the stored one leaves the database exactly as it is. *)
Theorem increase_field_monotonic classes doc key w o k db (r : bson) :
  w_heap w !! doc = Some o →
  o_fields o !! "_id" = Some k → o_fields o !! key = None →
  w_bind w = Bound (Some db) →
  let name := mongometa_name (classes (o_cls o)) in
  unique_ids (db_coll db name) →
  stored db name k = Some r → r !! key = None →
  (∀ v vs, ∃ w' db' (r' : bson) m,
      increases classes doc key (v :: vs) w = (Ok tt, w')
      ∧ w_bind w' = Bound (Some db')
      ∧ stored db' name k = Some r'
      ∧ r' !! key = Some (VInt m)
      ∧ m ∈ v :: vs ∧ Forall (λ x, (x <= m)%Z) (v :: vs))
  ∧ (∀ w1 db1 (r1 : bson) s v,
      w_heap w1 !! doc = Some o → w_bind w1 = Bound (Some db1) →
      unique_ids (db_coll db1 name) → stored db1 name k = Some r1 →
      r1 !! key = Some (VInt s) → (v <= s)%Z →
      ∃ w1', increase_field classes doc [(key, VInt v)] w1 = (Ok tt, w1')
             ∧ w_bind w1' = Bound (Some db1)).
Proof.
  intros Ho Hid Hkey Hb name Hu Hs Hr.
  assert (key ≠ "_id") as Hne by (intros ->; congruence).
  split.
  - intros v vs.
    assert (tracked classes doc o k w r) as Ht.
    { split; [done |]. exists db. split; [done |]. by apply stored_sole. }
    destruct (increase_field_first classes doc o k key Hid Hne Hkey w r v Ht Hr)
      as (w1 & r1 & Hrun1 & Ht1 & Hr1).
    destruct (increases_next classes doc o k key Hid Hne Hkey vs w1 r1 v Ht1 Hr1)
      as (w' & r' & Hrun & (_ & db' & Hb' & Hsole') & Hr').
    exists w', db', r', (foldl Z.max v vs).
    split; [simpl; by rewrite (bind_ok _ _ _ _ _ Hrun1) |].
    split; [done |]. split; [by apply sole_stored |]. split; [done |].
    apply foldl_max_spec.
  - intros w1 db1 r1 s v Ho1 Hb1 Hu1 Hs1 Hr1 Hle.
    apply (increase_field_smaller classes doc o k key Hid Hne w1 r1 s v db1); try done.
    by apply stored_sole.
Qed.

Lemma app_classes_keep_id c : keeps_id (app_classes c).
Proof.
  intros fl b f. unfold app_classes.
  destruct (String.eqb c "Strict"); simpl; by intros [= ->].
Qed.

(** C1, counterexample: [get], [clear], [get].  Both calls return an
    instance, the second one after querying the store, and the two
    instances are different objects (references 0 and 1). *)
Lemma get_clear_get_new_instance :
  get app_classes "User" [("_id", VInt 1)] w0 = (Ok (Some 0%nat), w_cached)
  ∧ clear w_cached = (Ok tt, w_cleared)
  ∧ fst (get app_classes "User" [("_id", VInt 1)] w_cleared) = Ok (Some 1%nat)
  ∧ w_calls (snd (get app_classes "User" [("_id", VInt 1)] w_cleared))
    = [CallFindOne "user" by_id_1; CallFindOne "user" by_id_1].
Proof. vm_compute. repeat split; reflexivity. Qed.

(** On the small application: a second [get(User, _id=1)] on the session
    that cached it. *)
Lemma get_same_instance_witness :
  ∃ r2 w2, get app_classes "User" [("_id", VInt 1)] w_cached = (Ok (Some r2), w2)
           ∧ r2 = 0%nat ∧ w2 = w_cached.
Proof.
  exists 0%nat, w_cached. split; [vm_compute; reflexivity |].
  apply (proj1 (get_same_instance app_classes "User" (VInt 1)
                  (app_classes_keep_id "User"))
           w0 0%nat w_cached w_cached 0%nat w_cached);
    vm_compute; reflexivity.
Defined.



(** C3, counterexample: the stored record has no [score], the in-memory
    document has one.  [increase_field(doc, score=5)] issues a single
    update, the one guarded by [score < 5]; no set of the field is sent
    first, and the database is left as it was. *)
Lemma increase_field_skips_the_set :
  stored db0 "user" (VInt 1) = Some rec1
  ∧ rec1 !! "score" = None
  ∧ increase_field app_classes 0 [("score", VInt 5)] w_local
    = (Ok tt,
       set_calls w_local
         [CallUpdate "user" (<["score" := CLt (VInt 5)]> by_id_1)
            (USet {["score" := VInt 5]}) false]).
Proof. vm_compute. repeat split; reflexivity. Qed.

(** On the small application: [increase_field(doc, score=5)] for the cached
    user, whose document has no [score]. *)
Lemma increase_field_two_updates_witness :
  increase_field app_classes 0 [("score", VInt 5)] w_cached
  = (Ok tt, called w_cached
              (after_increase false "user" "score" (VInt 5) (VInt 1) db0)
              (increase_calls false "user" "score" (VInt 5) (VInt 1))).
Proof.
  exact (proj1 (increase_field_two_updates app_classes 0 "score" (VInt 5) []
                  w_cached (Obj "User" rec1) (VInt 1) db0
                  ltac:(done) eq_refl eq_refl eq_refl)).
Defined.

(** C4, counterexample: same world.  After [increase_field(doc, score=5)]
    and [increase_field(doc, score=7)] the stored record still has no
    [score]: the database is unchanged, where the maximum submitted is 7. *)
Lemma increases_leave_field_absent :
  stored db0 "user" (VInt 1) = Some rec1
  ∧ rec1 !! "score" = None
  ∧ fst (increases app_classes 0 "score" [5; 7]%Z w_local) = Ok tt
  ∧ w_db (snd (increases app_classes 0 "score" [5; 7]%Z w_local)) = Some db0.
Proof. vm_compute. repeat split; reflexivity. Qed.

(** On the small application: [score] raised to 5, 3 and 7 in turn. *)
Lemma increase_field_monotonic_witness :
  ∃ w' db' (r' : bson) m,
    increases app_classes 0 "score" [5; 3; 7]%Z w_cached = (Ok tt, w')
    ∧ w_bind w' = Bound (Some db')
    ∧ stored db' "user" (VInt 1) = Some r'
    ∧ r' !! "score" = Some (VInt m)
    ∧ m ∈ [5; 3; 7]%Z ∧ Forall (λ x, (x <= m)%Z) [5; 3; 7]%Z.
Proof.
  apply (proj1 (increase_field_monotonic app_classes 0 "score" w_cached
                  (Obj "User" rec1) (VInt 1) db0 rec1
                  eq_refl eq_refl eq_refl eq_refl
                  ltac:(apply NoDup_singleton) eq_refl eq_refl)).
Defined.

(** On the small application: [save(doc, 'name')] of the edited user
    stores the new name and not the score that was edited with it. *)
Lemma partial_save_isolation_witness :
  ∃ (values : bson) w' db',
    save app_classes no_escape 0 ["name"] w_edited = (Ok tt, w')
    ∧ values !! "name" = Some (VStr "z") ∧ values !! "score" = None
    ∧ w_calls w' = [CallUpdate "user" by_id_1 (USet values) false]
    ∧ w_bind w' = Bound (Some db')
    ∧ ∃ r' : bson, db_coll db' "user" !! 0%nat = Some r'
                   ∧ r' !! "_id" = Some (VInt 1) ∧ r' !! "score" = None.
Proof.
  destruct (partial_save_isolation app_classes no_escape 0 ["name"] w_edited
              (Obj "User" {["_id" := VInt 1; "name" := VStr "z"; "score" := VInt 3]})
              {["_id" := VInt 1; "name" := VStr "z"; "score" := VInt 3]}
              {["_id" := VInt 1; "name" := VStr "z"; "score" := VInt 3]}
              (VInt 1) db0
              ltac:(done) eq_refl eq_refl eq_refl eq_refl
              ltac:(vm_compute; reflexivity)
              ltac:(repeat constructor; eexists; vm_compute; reflexivity))
    as (values & w' & db' & Hrun & Hvals & Hcalls & Hb & _ & _ & Hframe & _).
  exists values, w', db'. split; [exact Hrun |].
  split; [rewrite Hvals; vm_compute; reflexivity |].
  split; [rewrite Hvals; vm_compute; reflexivity |].
  split; [exact Hcalls |]. split; [exact Hb |].
  destruct (Hframe 0%nat rec1 eq_refl) as (r' & Hr' & Hsame).
  exists r'. split; [exact Hr' |].
  split; [rewrite Hsame; [reflexivity | by intros ?%list_elem_of_singleton]
         | rewrite Hsame; [reflexivity | by intros ?%list_elem_of_singleton]].
Defined.

(** On the small application.  A document without a name whose class has
    a hook that would supply one: [insert] and [upsert], which run no
    hook, are refused.  A document with a name whose hook removes it:
    [save] is refused.  And the strict document without a name, whose
    class has no hook: all three are refused. *)
Lemma validation_error_no_write_witness :
  ((fst (insert hook_classes no_escape 0 w_repair) = Raise (Invalid "name")
    ∧ store (snd (insert hook_classes no_escape 0 w_repair)) = store w_repair)
   ∧ (fst (upsert hook_classes no_escape 0 (OneField "_id") w_repair)
      = Raise (Invalid "name")
      ∧ store (snd (upsert hook_classes no_escape 0 (OneField "_id") w_repair))
        = store w_repair))
  ∧ (fst (save hook_classes no_escape 0 [] w_break) = Raise (Invalid "name")
     ∧ store (snd (save hook_classes no_escape 0 [] w_break)) = store w_break)
  ∧ (fst (save app_classes no_escape 0 [] w_strict) = Raise (Invalid "name")
     ∧ store (snd (save app_classes no_escape 0 [] w_strict)) = store w_strict)
  ∧ (fst (insert app_classes no_escape 0 w_strict) = Raise (Invalid "name")
     ∧ store (snd (insert app_classes no_escape 0 w_strict)) = store w_strict).
Proof.
  split; [| split; [| split]].
  - exact (proj1 (validation_error_no_write hook_classes no_escape 0 w_repair
                    (Obj "Repair" {["_id" := VInt 3]}) needs_name (Invalid "name")
                    [] (OneField "_id") eq_refl eq_refl) eq_refl).
  - exact (proj2 (validation_error_no_write hook_classes no_escape 0 w_break
                    (Obj "Break" {["_id" := VInt 3; "name" := VStr "x"]})
                    needs_name (Invalid "name") [] (OneField "_id") eq_refl eq_refl)
             (base.delete "name" {["_id" := VInt 3; "name" := VStr "x"]})
             eq_refl eq_refl).
  - exact (proj2 (validation_error_no_write app_classes no_escape 0 w_strict
                    (Obj "Strict" {["_id" := VInt 3]}) needs_name (Invalid "name")
                    [] (OneField "_id") eq_refl eq_refl)
             {["_id" := VInt 3]} eq_refl eq_refl).
  - exact (proj1 (proj1 (validation_error_no_write app_classes no_escape 0 w_strict
                    (Obj "Strict" {["_id" := VInt 3]}) needs_name (Invalid "name")
                    [] (OneField "_id") eq_refl eq_refl) eq_refl)).
Defined.

(** On the small application: a hit for key 1, a miss for key 9. *)
Lemma get_cached_or_find_one_witness :
  get app_classes "User" [("_id", VInt 1)] w_cached = (Ok (Some 0%nat), w_cached)
  ∧ get app_classes "User" [("_id", VInt 9)] w_cached
    = (Ok None,
       called w_cached db0
         [CallFindOne "user" (eq_query (kw_dict [("_id", VInt 9)]))]).
Proof.
  destruct (get_cached_or_find_one app_classes "User" [("_id", VInt 1)]
              w_cached db0 eq_refl) as [Hhit _].
  destruct (get_cached_or_find_one app_classes "User" [("_id", VInt 9)]
              w_cached db0 eq_refl) as [_ Hmiss].
  split; [exact (Hhit (VInt 1) 0%nat eq_refl eq_refl) |].
  apply Hmiss; [| vm_compute; reflexivity].
  intros k [= <-]. vm_compute. reflexivity.
Defined.

(** On the small application: [score=5] is processed, and the second
    pair, [name='z'], leaves no trace: two updates on [score] are issued,
    the stored user gets the score and keeps its name. *)
Lemma increase_field_ignores_extra_pairs_witness :
  increase_field app_classes 0 [("score", VInt 5); ("name", VStr "z")] w_cached
  = (Ok tt,
     called w_cached db0_score5
       [CallUpdate "user" (<["score" := CEq VNone]> by_id_1)
          (USet {["score" := VInt 5]}) false;
        CallUpdate "user" (<["score" := CLt (VInt 5)]> by_id_1)
          (USet {["score" := VInt 5]}) false]).
Proof.
  etrans.
  - exact (proj1 (increase_field_ignores_extra_pairs app_classes 0 "score"
                    (VInt 5) [("name", VStr "z")] w_cached ltac:(done))
             (Obj "User" rec1) (VInt 1) db0 eq_refl eq_refl eq_refl).
  - vm_compute. reflexivity.
Defined.

(** * More of the session: properties *)

(** ** Eviction, registration and reads through the identity map *)

Section IdentityMapUse.

Variable classes : cls → doc_class.

Lemma imap_save_ok doc w o k :
  w_heap w !! doc = Some o → o_fields o !! "_id" = Some k →
  imap_save doc w = (Ok tt, set_imap w (<[(o_cls o, k) := doc]> (w_imap w))).
Proof.
  intros Ho Hk. unfold imap_save. run_with deref_ok. by run_with getattr_ok.
Qed.

(** After a miss, [get] has made exactly one gateway call. *)
Lemma get_miss_calls c (kw : kwargs) w db :
  w_bind w = Bound (Some db) →
  (∀ k, kw = [("_id", k)] → w_imap w !! (c, k) = None) →
  w_calls (snd (get classes c kw w))
  = w_calls w ++ [CallFindOne (mongometa_name (classes c)) (eq_query (kw_dict kw))].
Proof.
  intros Hb Hmiss. rewrite (get_miss classes c kw w db Hb Hmiss).
  destruct (find_first _ _) as [b |]; [| done].
  assert (keeps store (let* r := fresh_object classes c b in ret (Some r))) as Hk.
  { apply keeps_bind; [apply keeps_fresh_object | intros ?; apply keeps_ret]. }
  specialize (Hk (called w db [CallFindOne (mongometa_name (classes c))
                                 (eq_query (kw_dict kw))])).
  unfold store in Hk. by injection Hk as _ ->.
Qed.

(** X1. [clear()] always returns, empties the identity map and the unit
    of work, and leaves the heap, the binding and the trace alone.  On a
    bound session every [get] by primary key that follows goes to the
    store: it issues a [find_one], whatever was cached before. *)
Theorem clear_evicts_everything w :
  ∃ w', clear w = (Ok tt, w')
        ∧ w_imap w' = ∅ ∧ w_uow w' = ∅
        ∧ w_heap w' = w_heap w ∧ store w' = store w
        ∧ ∀ c k db, w_bind w = Bound (Some db) →
            w_calls (snd (get classes c [("_id", k)] w'))
            = w_calls w ++ [CallFindOne (mongometa_name (classes c))
                              {["_id" := CEq k]}].
Proof.
  eexists. split; [reflexivity |]. simpl. do 4 (split; [done |]).
  intros c k db Hb. rewrite <- eq_query_id.
  by rewrite (get_miss_calls c [("_id", k)] (set_imap (set_uow w ∅) ∅) db).
Qed.

(** X2. [join_new(doc)], for a document that has a primary key, marks
    it new in the unit of work and registers it in the identity map under
    its own class and key, without touching the store; a [get] by that
    key then returns the very document, with no storage call. *)
Theorem join_new_then_get doc w o k :
  w_heap w !! doc = Some o → o_fields o !! "_id" = Some k →
  ∃ w', join_new doc w = (Ok tt, w')
        ∧ w_uow w' !! doc = Some New
        ∧ w_imap w' !! (o_cls o, k) = Some doc
        ∧ w_heap w' = w_heap w ∧ store w' = store w
        ∧ get classes (o_cls o) [("_id", k)] w' = (Ok (Some doc), w').
Proof.
  intros Ho Hk. eexists. split.
  { unfold join_new, uow_save_new, uow_save.
    erewrite bind_ok; [| reflexivity]. by apply (imap_save_ok doc _ o k). }
  simpl. split; [apply lookup_insert_eq |].
  split; [apply lookup_insert_eq |]. do 2 (split; [done |]).
  apply get_hit. simpl. apply lookup_insert_eq.
Qed.

(** X3. A document without a primary key: [delete] and [increase_field]
    (with a non-null value) raise the [AttributeError] of reading
    [doc._id], and the world is as before: no gateway call was made. *)
Theorem no_primary_key_no_call doc w o db key v (rest : kwargs) :
  w_heap w !! doc = Some o → o_fields o !! "_id" = None →
  w_bind w = Bound (Some db) → v ≠ VNone →
  delete classes doc w = (Raise (AttributeError "_id"), w)
  ∧ increase_field classes doc ((key, v) :: rest) w
    = (Raise (AttributeError "_id"), w).
Proof.
  intros Ho Hk Hb Hv.
  assert (getattr doc "_id" w = (Raise (AttributeError "_id"), w)) as Hget.
  { unfold getattr. run_with deref_ok. by rewrite Hk. }
  split.
  - unfold delete. run_with _impl_of_bound. run_with method_some.
    by apply bind_raise.
  - rewrite increase_field_cons, decide_False by done.
    unfold increase_field_updates. run_with deref_ok.
    destruct (decide (is_Some (o_fields o !! key))) as [Hin | Hout].
    + erewrite bind_ok; [| reflexivity].
      run_with _impl_of_bound. run_with method_some. by apply bind_raise.
    + apply bind_raise. run_with _impl_of_bound. run_with method_some.
      by apply bind_raise.
Qed.

(** X4. [get] on a session that has no database.  What is cached is
    still served; anything else raises an [AttributeError] (from
    [self.bind.db] when the session has no binding, from [.find_one] on
    the [None] that [_impl] returns when the binding has no [db]) and
    leaves the world as it was. *)
Theorem get_without_database c (kw : kwargs) w :
  w_db w = None →
  (∀ k r, kw = [("_id", k)] → w_imap w !! (c, k) = Some r →
     get classes c kw w = (Ok (Some r), w))
  ∧ ((∀ k, kw = [("_id", k)] → w_imap w !! (c, k) = None) →
     get classes c kw w
     = (Raise (AttributeError (match w_bind w with
                               | NoBind => "db"
                               | Bound _ => "find_one"
                               end)), w)).
Proof.
  intros Hdb. split; [intros k r -> Hr; by apply get_hit |].
  intros Hmiss. unfold get.
  erewrite bind_ok; cycle 1.
  { destruct (decide (kw.*1 = ["_id"])) as [Hk | Hk]; [| done].
    destruct (keys_id kw Hk) as [k ->].
    erewrite bind_ok; [| unfold dict_getitem; by rewrite kw_dict_id, lookup_singleton_eq].
    unfold imap_get. by rewrite (Hmiss k). }
  cbv beta iota. unfold w_db in Hdb.
  destruct (w_bind w) as [| [db |]] eqn:Hb; [| done |].
  - apply bind_raise. unfold _impl. by rewrite Hb.
  - erewrite bind_ok; [| unfold _impl; by rewrite Hb]. by apply bind_raise.
Qed.

End IdentityMapUse.

(** ** Materialising records *)

Section Materialise.

Variable classes : cls → doc_class.

Lemma fresh_object_new_run c (b f : bson) k w :
  keeps_id (classes c) →
  b !! "_id" = Some k → w_imap w !! (c, k) = None →
  make (classes c) (Flags false true) b = Ok f →
  fresh_object classes c b w
  = (Ok (length (w_heap w)),
     materialised w (w_heap w ++ [Obj c f]) (c, k) (length (w_heap w))).
Proof.
  intros Hid Hb Hmiss Hf. unfold fresh_object. rewrite Hb.
  erewrite bind_ok; [| unfold imap_get; by rewrite Hmiss].
  cbv beta iota.
  erewrite bind_ok; cycle 1.
  { erewrite bind_ok; [| unfold lift; by rewrite Hf]. reflexivity. }
  erewrite bind_ok; cycle 1.
  { apply (imap_save_ok _ _ (Obj c f) k).
    - simpl. by apply list_lookup_middle.
    - simpl. by rewrite (Hid _ _ _ Hf). }
  done.
Qed.

Lemma fresh_object_cached_run c (b f : bson) k w r o :
  keeps_id (classes c) →
  b !! "_id" = Some k → w_imap w !! (c, k) = Some r →
  w_heap w !! r = Some o →
  make (classes c) DefaultFlags b = Ok f →
  fresh_object classes c b w
  = (Ok r, materialised w (<[r := Obj (o_cls o) (f ∪ o_fields o)]> (w_heap w))
             (o_cls o, k) r).
Proof.
  intros Hid Hb Hr Ho Hf. unfold fresh_object. rewrite Hb.
  erewrite bind_ok; [| unfold imap_get; by rewrite Hr].
  cbv beta iota.
  erewrite bind_ok; cycle 1.
  { erewrite bind_ok; [| unfold lift; by rewrite Hf].
    run_with obj_update_ok. done. }
  erewrite bind_ok; cycle 1.
  { apply (imap_save_ok _ _ (Obj (o_cls o) (f ∪ o_fields o)) k).
    - by eapply set_heap_lookup.
    - simpl. apply lookup_union_Some_l. by rewrite (Hid _ _ _ Hf). }
  done.
Qed.

Lemma fresh_object_rejected c (b : bson) w e :
  (∀ k, b !! "_id" = Some k → w_imap w !! (c, k) = None) →
  make (classes c) (Flags false true) b = Raise e →
  fresh_object classes c b w = (Raise e, w).
Proof.
  intros Hmiss He. unfold fresh_object.
  erewrite bind_ok; cycle 1.
  { destruct (b !! "_id") as [k |]; [| done].
    unfold imap_get. by rewrite (Hmiss k). }
  cbv beta iota. apply bind_raise. apply bind_raise. unfold lift. by rewrite He.
Qed.

(** X5. A read that goes to the store and finds a record whose key has no
    instance yet: [get] returns a new object, at a reference no object
    had before, whose fields are what the class's [make] builds from the
    record; it is registered in the identity map under (class, key) and
    marked clean, the objects already on the heap are untouched, and the
    one gateway call was the [find_one]. *)
Theorem get_materialises_record c (kw : kwargs) w db (b f : bson) k :
  keeps_id (classes c) →
  w_bind w = Bound (Some db) →
  (∀ k0, kw = [("_id", k0)] → w_imap w !! (c, k0) = None) →
  let name := mongometa_name (classes c) in
  let q := eq_query (kw_dict kw) in
  find_first q (db_coll db name) = Some b →
  b !! "_id" = Some k → w_imap w !! (c, k) = None →
  make (classes c) (Flags false true) b = Ok f →
  let r := length (w_heap w) in
  ∃ w', get classes c kw w = (Ok (Some r), w')
        ∧ w_heap w' = w_heap w ++ [Obj c f]
        ∧ w_imap w' = <[(c, k) := r]> (w_imap w)
        ∧ w_uow w' = <[r := Clean]> (w_uow w)
        ∧ w_bind w' = w_bind w
        ∧ w_calls w' = w_calls w ++ [CallFindOne name q].
Proof.
  intros Hid Hb Hmiss name q Hfind Hk Hfree Hf r. eexists. split.
  { rewrite (get_miss classes c kw w db Hb Hmiss). fold name q. rewrite Hfind.
    erewrite bind_ok; [reflexivity |].
    by apply (fresh_object_new_run c b f k). }
  simpl. by rewrite Hb.
Qed.

(** X6. A record that the class's [make] rejects: [get] raises [make]'s
    own exception after the [find_one]; no object is created, and the
    identity map and the unit of work are as before. *)
Theorem get_rejected_record c (kw : kwargs) w db (b : bson) e :
  w_bind w = Bound (Some db) →
  (∀ k0, kw = [("_id", k0)] → w_imap w !! (c, k0) = None) →
  let name := mongometa_name (classes c) in
  let q := eq_query (kw_dict kw) in
  find_first q (db_coll db name) = Some b →
  (∀ k, b !! "_id" = Some k → w_imap w !! (c, k) = None) →
  make (classes c) (Flags false true) b = Raise e →
  get classes c kw w = (Raise e, called w db [CallFindOne name q]).
Proof.
  intros Hb Hmiss name q Hfind Hfree He.
  rewrite (get_miss classes c kw w db Hb Hmiss). fold name q. rewrite Hfind.
  apply bind_raise. by apply fresh_object_rejected.
Qed.

(** X7. Read consolidation.  A [get] by a filter other than the primary
    key, whose [find_one] resolves to a record with a cached instance,
    returns that instance: its fields are refreshed in place from the
    record (what [make] produced wins, fields only the in-memory object
    had are kept), no object is created, and the instance is marked
    clean. *)
Theorem get_refreshes_cached c (kw : kwargs) w db (b f : bson) k r o :
  keeps_id (classes c) →
  w_bind w = Bound (Some db) → kw.*1 ≠ ["_id"] →
  let name := mongometa_name (classes c) in
  let q := eq_query (kw_dict kw) in
  find_first q (db_coll db name) = Some b →
  b !! "_id" = Some k → w_imap w !! (c, k) = Some r →
  w_heap w !! r = Some o →
  make (classes c) DefaultFlags b = Ok f →
  ∃ w' (fields : bson),
    get classes c kw w = (Ok (Some r), w')
    ∧ w_heap w' = <[r := Obj (o_cls o) fields]> (w_heap w)
    ∧ length (w_heap w') = length (w_heap w)
    ∧ (∀ x v, f !! x = Some v → fields !! x = Some v)
    ∧ (∀ x, f !! x = None → fields !! x = o_fields o !! x)
    ∧ w_uow w' !! r = Some Clean
    ∧ w_calls w' = w_calls w ++ [CallFindOne name q].
Proof.
  intros Hid Hb Hkw name q Hfind Hk Hr Ho Hf.
  exists (materialised (called w db [CallFindOne name q])
            (<[r := Obj (o_cls o) (f ∪ o_fields o)]> (w_heap w)) (o_cls o, k) r),
         (f ∪ o_fields o).
  split.
  { rewrite (get_miss classes c kw w db Hb); cycle 1.
    { intros k0 ->. by destruct Hkw. }
    fold name q. rewrite Hfind.
    erewrite bind_ok; [reflexivity |].
    by apply (fresh_object_cached_run c b f k (called w db [CallFindOne name q]) r o). }
  simpl. split; [done |]. split; [apply length_insert |].
  split; [intros x v Hx; by apply lookup_union_Some_l |].
  split; [intros x Hx; by apply lookup_union_r |].
  split; [apply lookup_insert_eq | done].
Qed.

End Materialise.

(** ** The store: replacing and inserting whole records *)

Lemma find_first_update_first q u c (r : bson) :
  find_first q c = Some r → matches q (apply_update u r) = true →
  find_first q (update_first q u c) = Some (apply_update u r).
Proof.
  induction c as [| x c IH]; simpl; [done |].
  destruct (matches q x) eqn:Hx.
  - intros [= ->] Hm. simpl. by rewrite Hm.
  - intros Hf Hm. simpl. rewrite Hx. by apply IH.
Qed.

Lemma replace_keeps_key (data r : bson) k :
  data !! "_id" = Some k → rid r = k → apply_update (UReplace data) r = data.
Proof.
  intros Hd Hr. simpl. unfold rid in Hr.
  destruct (r !! "_id") as [k' |]; [| done].
  simpl in Hr. subst k'. by apply insert_id.
Qed.

Lemma rid_key (data : bson) k : data !! "_id" = Some k → rid data = k.
Proof. intros H. unfold rid. by rewrite H. Qed.

(** [save] of a record that has a key: afterwards the store's record for
    that key is the record saved. *)
Lemma save_op_keyed name (data : bson) k db :
  data !! "_id" = Some k →
  ∃ db', save_op name data db = (Ok k, db')
         ∧ stored db' name k = Some data
         ∧ (∀ n, n ≠ name → db_coll db' n = db_coll db n).
Proof.
  intros Hd. unfold save_op, update_op. rewrite Hd.
  destruct (find_first {["_id" := CEq k]} (db_coll db name)) as [r |] eqn:Hfind.
  - eexists. split; [done |]. split; [| intros n Hn; by apply db_coll_set_ne].
    unfold stored. rewrite db_coll_set_eq.
    pose proof (find_first_some _ _ _ Hfind) as [_ Hm]. apply matches_id in Hm.
    rewrite <- (replace_keeps_key data r k Hd Hm) at 2.
    apply find_first_update_first; [done |].
    rewrite (replace_keeps_key data r k Hd Hm). by apply matches_id, rid_key.
  - assert (upsert_record {["_id" := CEq k]} (UReplace data) = data) as ->.
    { unfold upsert_record, query_eq_fields.
      rewrite (omap_singleton_Some _ _ _ k) by done.
      rewrite lookup_singleton_eq. apply map_eq. intros x.
      rewrite lookup_union. destruct (decide (x = "_id")) as [-> | Hx].
      - by rewrite Hd, lookup_singleton_eq.
      - rewrite lookup_singleton_ne by done. by destruct (data !! x). }
    unfold insert_op, assign_id. rewrite Hd.
    apply find_first_none in Hfind.
    assert (existsb (λ r, bool_decide (rid r = rid data)) (db_coll db name) = false) as ->.
    { apply not_true_iff_false. intros (r & Hin & Hr)%existsb_exists.
      apply bool_decide_eq_true in Hr. rewrite (rid_key data k Hd) in Hr.
      apply list_elem_of_In in Hin.
      pose proof (proj1 (Forall_forall _ _) Hfind r Hin) as Hno. simpl in Hno.
      apply matches_id in Hr. congruence. }
    eexists. split; [done |]. split; [| intros n Hn; by apply db_coll_set_ne].
    unfold stored. rewrite db_coll_set_eq.
    apply find_first_middle; [done | by apply matches_id, rid_key].
Qed.

(** [insert] of a record without a key, when the next object id is not
    taken: the record is appended under that id. *)
Lemma insert_op_fresh name (data : bson) db :
  data !! "_id" = None →
  Forall (λ r, rid r ≠ VOid (db_next_oid db)) (db_coll db name) →
  let oid := VOid (db_next_oid db) in
  ∃ db', insert_op name data db = (Ok oid, db')
         ∧ db_coll db' name = db_coll db name ++ [<["_id" := oid]> data]
         ∧ stored db' name oid = Some (<["_id" := oid]> data)
         ∧ (∀ n, n ≠ name → db_coll db' n = db_coll db n).
Proof.
  intros Hd Hfresh oid. subst oid. unfold insert_op, assign_id. rewrite Hd.
  set (oid := VOid (db_next_oid db)) in *.
  set (db1 := {| db_colls := db_colls db; db_next_oid := Pos.succ (db_next_oid db) |}).
  assert (∀ n, db_coll db1 n = db_coll db n) as Hsame by done.
  assert (rid (<["_id" := oid]> data) = oid) as Hrid
    by (unfold rid; by rewrite lookup_insert_eq).
  rewrite Hsame, Hrid.
  assert (existsb (λ r, bool_decide (rid r = oid)) (db_coll db name) = false) as ->.
  { apply not_true_iff_false. intros (r & Hin & Hr)%existsb_exists.
    apply bool_decide_eq_true in Hr. apply list_elem_of_In in Hin.
    by apply (proj1 (Forall_forall _ _) Hfresh r Hin). }
  eexists. split; [done |].
  split; [apply db_coll_set_eq |]. split.
  - unfold stored. rewrite db_coll_set_eq.
    apply find_first_middle; [| by apply matches_id].
    eapply Forall_impl; [exact Hfresh |]. intros r Hr. simpl.
    destruct (matches _ r) eqn:Hm; [| done]. by apply matches_id in Hm.
  - intros n Hn. rewrite db_coll_set_ne by done. apply Hsame.
Qed.

Lemma gateway_run {A} c (op : database → result A * database) w db a db' :
  w_bind w = Bound (Some db) → op db = (Ok a, db') →
  gateway c op w = (Ok a, called w db' [c]).
Proof. intros Hb Hop. rewrite (gateway_bound _ _ _ _ Hb). by rewrite Hop. Qed.

Section FullWrites.

Variable classes : cls → doc_class.
Variable make_safe_fields : bson → bson.

(** X8. Round trip of a full [save].  For a document whose validated
    data carries the primary key [k], [save(doc)] returns after one
    gateway call, a [save] of the validated data; afterwards the store's
    record for [k] is exactly that data, other collections are untouched,
    and the in-memory object has taken the data over its own fields. *)
Theorem save_stores_validated_data doc w o (f1 data : bson) k db :
  w_heap w !! doc = Some o →
  w_bind w = Bound (Some db) →
  hooked (classes (o_cls o)) (o_fields o) = Ok f1 →
  checked (classes (o_cls o)) (make_safe_fields f1) = Ok data →
  data !! "_id" = Some k →
  let name := mongometa_name (classes (o_cls o)) in
  ∃ w' db',
    save classes make_safe_fields doc [] w = (Ok tt, w')
    ∧ w_calls w' = w_calls w ++ [CallSave name data]
    ∧ w_bind w' = Bound (Some db')
    ∧ stored db' name k = Some data
    ∧ (∀ n, n ≠ name → db_coll db' n = db_coll db n)
    ∧ w_heap w' !! doc = Some (Obj (o_cls o) (data ∪ make_safe_fields f1)).
Proof.
  intros Ho Hb Hh Hc Hk name.
  destruct (save_hook_ok classes doc w o f1 Ho Hh) as (w1 & Hrun & Ho1 & Hst1).
  destruct (validated_ok classes make_safe_fields doc w1 _ data Ho1 Hc)
    as (w2 & Hval & Ho2 & Hst2).
  simpl in Ho2, Hval.
  assert (w_bind w2 = Bound (Some db) ∧ w_calls w2 = w_calls w) as [Hb2 Hc2].
  { unfold store in *. split; congruence. }
  destruct (save_op_keyed name data k db Hk) as (db' & Hop & Hstored & Hother).
  exists (called w2 db' [CallSave name data]), db'. split.
  { unfold save. run_with deref_ok.
    rewrite (bind_ok _ _ _ _ _ Hrun). rewrite (bind_ok _ _ _ _ _ Hval).
    erewrite bind_ok; cycle 1.
    { run_with _impl_of_bound. run_with method_some.
      unfold coll_save. by apply gateway_run with db. }
    run_with deref_ok. simpl.
    rewrite (lookup_union_Some_l _ _ _ _ Hk). simpl.
    by rewrite andb_false_r. }
  simpl. by rewrite Hc2.
Qed.

(** X9. A full [save] of a document that has no primary key yet (neither
    in memory nor in its validated data), when the store's next object id
    is free: the record is inserted under the generated id, and that id
    is written back onto the in-memory document as [_id]. *)
Theorem save_assigns_generated_key doc w o (f1 data : bson) db :
  w_heap w !! doc = Some o →
  w_bind w = Bound (Some db) →
  hooked (classes (o_cls o)) (o_fields o) = Ok f1 →
  checked (classes (o_cls o)) (make_safe_fields f1) = Ok data →
  (data ∪ make_safe_fields f1) !! "_id" = None →
  let name := mongometa_name (classes (o_cls o)) in
  let oid := VOid (db_next_oid db) in
  Forall (λ r, rid r ≠ oid) (db_coll db name) →
  ∃ w' db',
    save classes make_safe_fields doc [] w = (Ok tt, w')
    ∧ w_bind w' = Bound (Some db')
    ∧ db_coll db' name = db_coll db name ++ [<["_id" := oid]> data]
    ∧ stored db' name oid = Some (<["_id" := oid]> data)
    ∧ w_heap w' !! doc
      = Some (Obj (o_cls o) (<["_id" := oid]> (data ∪ make_safe_fields f1))).
Proof.
  intros Ho Hb Hh Hc Hk name oid Hfresh.
  destruct (save_hook_ok classes doc w o f1 Ho Hh) as (w1 & Hrun & Ho1 & Hst1).
  destruct (validated_ok classes make_safe_fields doc w1 _ data Ho1 Hc)
    as (w2 & Hval & Ho2 & Hst2).
  simpl in Ho2, Hval.
  assert (w_bind w2 = Bound (Some db)) as Hb2.
  { unfold store in *. congruence. }
  apply lookup_union_None in Hk as [Hkd Hkf].
  destruct (insert_op_fresh name data db Hkd Hfresh) as (db' & Hop & Hcoll & Hstored & _).
  eexists _, db'. split.
  { unfold save. run_with deref_ok.
    rewrite (bind_ok _ _ _ _ _ Hrun). rewrite (bind_ok _ _ _ _ _ Hval).
    erewrite bind_ok; cycle 1.
    { run_with _impl_of_bound. run_with method_some.
      unfold coll_save. apply gateway_run with db; [done |].
      unfold save_op. rewrite Hkd. exact Hop. }
    run_with deref_ok. simpl.
    rewrite (proj2 (lookup_union_None _ _ _) (conj Hkd Hkf)). simpl.
    unfold setattr. run_with deref_ok. simpl.
    by apply (set_fields_ok doc _ _ (Obj (o_cls o) (data ∪ make_safe_fields f1))). }
  split; [done |]. split; [done |]. split; [done |].
  simpl. apply list_lookup_insert_eq. by eapply lookup_lt_Some.
Qed.

(** X10. [insert] of a document without a primary key, when the store's
    next object id is free: the validated data is appended to the
    collection under the generated id, by one [insert] call, and the id is
    assigned to the in-memory document. *)
Theorem insert_assigns_generated_key doc w o (data : bson) db :
  w_heap w !! doc = Some o →
  w_bind w = Bound (Some db) →
  checked (classes (o_cls o)) (make_safe_fields (o_fields o)) = Ok data →
  data !! "_id" = None →
  let name := mongometa_name (classes (o_cls o)) in
  let oid := VOid (db_next_oid db) in
  Forall (λ r, rid r ≠ oid) (db_coll db name) →
  ∃ w' db',
    insert classes make_safe_fields doc w = (Ok tt, w')
    ∧ w_calls w' = w_calls w ++ [CallInsert name data]
    ∧ w_bind w' = Bound (Some db')
    ∧ db_coll db' name = db_coll db name ++ [<["_id" := oid]> data]
    ∧ w_heap w' !! doc
      = Some (Obj (o_cls o)
                (<["_id" := oid]> (data ∪ make_safe_fields (o_fields o)))).
Proof.
  intros Ho Hb Hc Hk name oid Hfresh.
  destruct (validated_ok classes make_safe_fields doc w o data Ho Hc)
    as (w2 & Hval & Ho2 & Hst2).
  assert (w_bind w2 = Bound (Some db) ∧ w_calls w2 = w_calls w) as [Hb2 Hc2].
  { unfold store in *. split; congruence. }
  destruct (insert_op_fresh name data db Hk Hfresh) as (db' & Hop & Hcoll & _ & _).
  eexists _, db'. split.
  { unfold insert. rewrite (bind_ok _ _ _ _ _ Hval).
    run_with _impl_of_bound. run_with method_some.
    erewrite bind_ok; [| unfold coll_insert; by apply gateway_run with db].
    simpl.
    by apply (obj_update_ok doc _ _ (Obj (o_cls o) (data ∪ make_safe_fields (o_fields o)))). }
  simpl. split; [by rewrite Hc2 |]. split; [done |]. split; [done |].
  rewrite <- insert_union_singleton_l.
  apply list_lookup_insert_eq. by eapply lookup_lt_Some.
Qed.

End FullWrites.

(** ** [upsert] and the errors of a partial [save] *)

Lemma getitem_ok r a w o v :
  w_heap w !! r = Some o → o_fields o !! a = Some v → getitem r a w = (Ok v, w).
Proof.
  intros Ho Hv. unfold getitem. rewrite (bind_ok _ _ _ _ _ (deref_ok _ _ _ Ho)).
  by rewrite Hv.
Qed.


Lemma doc_items_missing doc w o pre k post :
  w_heap w !! doc = Some o →
  Forall (λ a, is_Some (o_fields o !! a)) pre → o_fields o !! k = None →
  mapM (λ a, let* v := getitem doc a in ret (a, v)) (pre ++ k :: post) w
  = (Raise (KeyError k), w).
Proof.
  intros Ho Hpre Hk. induction Hpre as [| a pre [v Hv] _ IH]; simpl.
  - do 2 apply bind_raise. unfold getitem. run_with deref_ok. by rewrite Hk.
  - erewrite bind_ok; cycle 1.
    { run_with getitem_ok. reflexivity. }
    by apply bind_raise.
Qed.

Section Upsert.

Variable classes : cls → doc_class.
Variable make_safe_fields : bson → bson.

(** X11. [upsert] with a spec field the document does not have: the
    [KeyError] of [doc[k]] for the first such field is raised while the
    filter is being built, after validation and before any gateway call;
    the store is untouched. *)
Theorem upsert_missing_spec_field doc w o (data : bson) db spec pre k post :
  w_heap w !! doc = Some o →
  w_bind w = Bound (Some db) →
  checked (classes (o_cls o)) (make_safe_fields (o_fields o)) = Ok data →
  let fields := data ∪ make_safe_fields (o_fields o) in
  spec_list spec = pre ++ k :: post →
  Forall (λ a, is_Some (fields !! a)) pre → fields !! k = None →
  fst (upsert classes make_safe_fields doc spec w) = Raise (KeyError k)
  ∧ store (snd (upsert classes make_safe_fields doc spec w)) = store w.
Proof.
  intros Ho Hb Hc fields Hspec Hpre Hk.
  destruct (validated_ok classes make_safe_fields doc w o data Ho Hc)
    as (w2 & Hval & Ho2 & Hst2).
  assert (w_bind w2 = Bound (Some db)) as Hb2 by (unfold store in *; congruence).
  assert (upsert classes make_safe_fields doc spec w = (Raise (KeyError k), w2)) as ->;
    [| done].
  unfold upsert. rewrite (bind_ok _ _ _ _ _ Hval).
  run_with _impl_of_bound. run_with method_some.
  apply bind_raise. fold (spec_list spec). rewrite Hspec.
  by apply (doc_items_missing doc w2 _ pre k post Ho2).
Qed.


(** X13. A partial [save] that cannot build its update raises before any
    gateway call, leaving the store untouched: with a [KeyError] when a
    named field is not in the validated data, and with the
    [AttributeError] of [doc._id] when every named field is there but the
    document has no primary key. *)
Theorem partial_save_raises_before_writing doc args w o (f1 data : bson) db :
  args ≠ [] →
  w_heap w !! doc = Some o →
  w_bind w = Bound (Some db) →
  hooked (classes (o_cls o)) (o_fields o) = Ok f1 →
  checked (classes (o_cls o)) (make_safe_fields f1) = Ok data →
  let run := save classes make_safe_fields doc args w in
  (∀ pre a post, args = pre ++ a :: post →
     Forall (λ x, is_Some (data !! x)) pre → data !! a = None →
     fst run = Raise (KeyError a) ∧ store (snd run) = store w)
  ∧ (Forall (λ x, is_Some (data !! x)) args →
     (data ∪ make_safe_fields f1) !! "_id" = None →
     fst run = Raise (AttributeError "_id") ∧ store (snd run) = store w).
Proof.
  intros Hargs Ho Hb Hh Hc run.
  destruct (save_hook_ok classes doc w o f1 Ho Hh) as (w1 & Hrun & Ho1 & Hst1).
  destruct (validated_ok classes make_safe_fields doc w1 _ data Ho1 Hc)
    as (w2 & Hval & Ho2 & Hst2).
  simpl in Ho2, Hval.
  assert (w_bind w2 = Bound (Some db) ∧ store w2 = store w) as [Hb2 Hst].
  { unfold store in *. split; congruence. }
  assert (∀ e, (let* values := pick data args in
               let* h := _impl_of classes doc in
               let* name := method h "update" in
               let* k := getattr doc "_id" in
               coll_update name {["_id" := CEq k]} (USet values) false) w2
              = (Raise e, w2) →
            fst run = Raise e ∧ store (snd run) = store w) as Hfail.
  { intros e He. subst run. unfold save. run_with deref_ok.
    rewrite (bind_ok _ _ _ _ _ Hrun). rewrite (bind_ok _ _ _ _ _ Hval).
    destruct args as [| a0 args']; [done |].
    by rewrite (bind_raise _ _ _ _ _ He). }
  split.
  - intros pre a post -> Hpre Ha. apply Hfail. apply bind_raise.
    unfold pick. apply bind_raise. clear Hfail Hargs run.
    induction Hpre as [| x pre [v Hv] _ IH]; simpl.
    + do 2 apply bind_raise. unfold dict_getitem. by rewrite Ha.
    + erewrite bind_ok; cycle 1.
      { erewrite bind_ok; [reflexivity |]. unfold dict_getitem. by rewrite Hv. }
      by apply bind_raise.
  - intros Hall Hk. apply Hfail.
    destruct (pick_ok data args w2 Hall) as (values & Hpick & _).
    rewrite (bind_ok _ _ _ _ _ Hpick).
    run_with _impl_of_bound. run_with method_some.
    apply bind_raise. unfold getattr. run_with deref_ok. simpl. by rewrite Hk.
Qed.

End Upsert.

(** ** [_set] on nested documents *)

Lemma _set_step h doc k rest v :
  rest ≠ [] →
  _set h doc (k :: rest) v
  = match dict_at h doc with
    | Some m =>
        match m !! k with
        | Some child => _set h child rest v
        | None => NoKey k
        end
    | None => NotADict
    end.
Proof. by destruct rest. Qed.

(** What a successful [_set] has done: one slot of one [dict], the one
    the path without its last part leads to, has been assigned. *)
Lemma _set_done init : ∀ h doc k v h',
  _set h doc (init ++ [k]) v = Done h'
  ↔ ∃ r m, lookup_path h doc init = Some (DictRef r) ∧ h !! r = Some m
           ∧ h' = <[r := <[k := v]> m]> h.
Proof.
  induction init as [| a init IH]; intros h doc k v h'.
  - simpl. destruct doc as [x | r].
    + split; [done | by intros (? & ? & ? & _)].
    + destruct (h !! r) as [m |] eqn:Hr.
      * split.
        -- intros [= <-]. by exists r, m.
        -- intros (r' & m' & [= <-] & Hm & ->). rewrite Hr in Hm. by injection Hm as <-.
      * split; [done |]. intros (r' & m' & [= <-] & Hm & _). congruence.
  - change ((a :: init) ++ [k]) with (a :: (init ++ [k])).
    rewrite _set_step by (by destruct init). simpl.
    destruct (dict_at h doc) as [m |]; [| split; [done | by intros (? & ? & ? & _)]].
    destruct (m !! a) as [child |]; [| split; [done | by intros (? & ? & ? & _)]].
    apply IH.
Qed.

(** A read that does not subscript the assigned slot is not affected. *)
Lemma lookup_path_frame h r m k v path : ∀ doc,
  h !! r = Some m → (r, k) ∉ reads h doc path →
  lookup_path (<[r := <[k := v]> m]> h) doc path = lookup_path h doc path.
Proof.
  induction path as [| a path IH]; intros doc Hr Hno; [done |].
  simpl in *. destruct doc as [x | r0]; [done |]. simpl.
  apply not_elem_of_cons in Hno as [Hne Hno].
  destruct (decide (r0 = r)) as [-> | Hr0].
  - rewrite lookup_insert_eq, Hr. rewrite Hr in Hno.
    assert (a ≠ k) as Hak by congruence.
    rewrite lookup_insert_ne by done.
    destruct (m !! a) as [child |]; [by apply IH | done].
  - rewrite lookup_insert_ne by done.
    destruct (h !! r0) as [m0 |]; [| done].
    destruct (m0 !! a) as [child |]; [by apply IH | done].
Qed.

Lemma lookup_path_app h p : ∀ doc q,
  lookup_path h doc (p ++ q)
  = match lookup_path h doc p with
    | Some d => lookup_path h d q
    | None => None
    end.
Proof.
  induction p as [| a p IH]; intros doc q; [done |]. simpl.
  destruct (dict_at h doc) as [m |]; [| done].
  destruct (m !! a) as [child |]; [apply IH | done].
Qed.

Lemma lookup_path_rank h rank path : ∀ r0 r,
  ranked h rank →
  lookup_path h (DictRef r0) path = Some (DictRef r) →
  (rank r <= rank r0)%nat ∧ (path ≠ [] → (rank r < rank r0)%nat).
Proof.
  induction path as [| a path IH]; intros r0 r Hrank Hpath.
  - injection Hpath as <-. split; [lia | done].
  - simpl in Hpath. destruct (h !! r0) as [m |] eqn:Hr0; [| done].
    destruct (m !! a) as [child |] eqn:Ha; [| done].
    destruct child as [x | c].
    { destruct path; simpl in Hpath; done. }
    pose proof (Hrank _ _ _ _ Hr0 Ha) as Hlt.
    destruct (IH c r Hrank Hpath) as [Hle _]. split; [lia | intros _; lia].
Qed.

(** In a heap without cycles, reading the way to a [dict] never
    subscripts that [dict]. *)
Lemma ranked_reads h rank init : ∀ doc r k,
  ranked h rank →
  lookup_path h doc init = Some (DictRef r) → (r, k) ∉ reads h doc init.
Proof.
  induction init as [| a init IH]; intros doc r k Hrank Hpath.
  - apply not_elem_of_nil.
  - simpl in *. destruct doc as [x | r0]; [done |]. simpl in Hpath.
    destruct (h !! r0) as [m |] eqn:Hr0; [| done].
    destruct (m !! a) as [child |] eqn:Ha; [| done].
    apply not_elem_of_cons. split; [| by apply IH].
    intros [= -> ->]. destruct child as [x | c].
    { destruct init; simpl in Hpath; done. }
    pose proof (Hrank _ _ _ _ Hr0 Ha) as Hlt.
    destruct (lookup_path_rank h rank init c r0 Hrank Hpath) as [Hle _]. lia.
Qed.

(** X14. Round trip of [_set]: after [_set(doc, path, v)] has returned
    for a non-empty path, reading along the path gives [v], provided
    that reading the path up to its last part does not go through the
    very slot that is assigned (which no document without cycles does,
    see [ranked_reads]). *)
Theorem set_then_lookup init k h doc v h' :
  _set h doc (init ++ [k]) v = Done h' →
  (∀ r, lookup_path h doc init = Some (DictRef r) → (r, k) ∉ reads h doc init) →
  lookup_path h' doc (init ++ [k]) = Some v.
Proof.
  intros Hset Hfree. apply _set_done in Hset as (r & m & Hinit & Hr & ->).
  rewrite lookup_path_app, (lookup_path_frame h r m k v init doc Hr (Hfree r Hinit)).
  rewrite Hinit. simpl. by rewrite !lookup_insert_eq.
Qed.

(** X15. Frame of [_set], with sharing: a successful [_set] assigns one
    slot, the last part of the path in the [dict] the rest of the path
    leads to, in place.  Every other [dict] is as before, and so is
    every read, from any root and along any path, that does not
    subscript that slot; a read that reaches the same [dict] by another
    way is not covered, and does see the new value. *)
Theorem set_other_paths init k h doc v h' :
  _set h doc (init ++ [k]) v = Done h' →
  ∃ r m, lookup_path h doc init = Some (DictRef r) ∧ h !! r = Some m
    ∧ h' !! r = Some (<[k := v]> m)
    ∧ (∀ r', r' ≠ r → h' !! r' = h !! r')
    ∧ (∀ root other, (r, k) ∉ reads h root other →
         lookup_path h' root other = lookup_path h root other).
Proof.
  intros Hset. apply _set_done in Hset as (r & m & Hinit & Hr & ->).
  exists r, m. split; [done |]. split; [done |].
  split; [apply lookup_insert_eq |].
  split; [intros r' Hne; by apply lookup_insert_ne |].
  intros root other Hno. by apply lookup_path_frame.
Qed.

(** X16. [_set] succeeds exactly when everything before the last part of
    the path resolves to a [dict]: the last part may be new, but no
    intermediate [dict] is ever created. *)
Theorem set_succeeds_iff_parent_is_dict init h doc k v :
  (∃ h', _set h doc (init ++ [k]) v = Done h')
  ↔ (∃ r m, lookup_path h doc init = Some (DictRef r) ∧ h !! r = Some m).
Proof.
  split.
  - intros [h' Hset]. apply _set_done in Hset as (r & m & Hinit & Hr & _).
    by exists r, m.
  - intros (r & m & Hinit & Hr). eexists. apply _set_done. by exists r, m.
Qed.

(** ** Session registries *)

Section Registry.

Context {S D : Type}.
Variable construct : option D → S.

(** After [by_name], the registry holds the session it returned. *)
Lemma by_name_registers name (g : registry S D) :
  reg_names (snd (by_name construct name g)) !! name
  = Some (fst (by_name construct name g)).
Proof.
  unfold by_name. destruct (reg_names g !! name) eqn:Hn; simpl; [done |].
  apply lookup_insert_eq.
Qed.

(** X17. [by_name] hands out one session per name: asked again for the
    same name, at any later time at which the entry is still there, it
    returns the same session object and changes nothing. *)
Theorem by_name_same_session name (g : registry S D) :
  let s := fst (by_name construct name g) in
  let g1 := snd (by_name construct name g) in
  reg_names g1 !! name = Some s
  ∧ ∀ g2, reg_names g2 !! name = reg_names g1 !! name →
          by_name construct name g2 = (s, g2).
Proof.
  simpl. pose proof (by_name_registers name g) as H.
  split; [done |]. intros g2 Hg2. rewrite H in Hg2.
  unfold by_name at 1. by rewrite Hg2.
Qed.

(** X18. The first [by_name] for a name constructs the session from the
    datastore registered under that name ([None] when there is none),
    gives it a reference no session had, and keeps every session made
    before and every other name's entry. *)
Theorem by_name_constructs_once name (g : registry S D) :
  reg_names g !! name = None →
  let s := fst (by_name construct name g) in
  let g1 := snd (by_name construct name g) in
  s = length (reg_objects g)
  ∧ reg_objects g1 !! s = Some (construct (reg_datastores g !! name))
  ∧ (∀ i x, reg_objects g !! i = Some x → reg_objects g1 !! i = Some x)
  ∧ (∀ n, n ≠ name → reg_names g1 !! n = reg_names g !! n)
  ∧ reg_datastores g1 = reg_datastores g.
Proof.
  intros Hn. unfold by_name. rewrite Hn. simpl.
  split; [done |]. split; [by apply list_lookup_middle |].
  split; [intros i x Hi; by apply lookup_app_l_Some |].
  split; [intros n Hne; by rewrite lookup_insert_ne | done].
Qed.

(** X19. [by_name] keeps the registry well formed, and in a well-formed
    registry two different names never share a session. *)
Theorem by_name_distinct_names name1 name2 (g : registry S D) :
  registry_ok g → name1 ≠ name2 →
  let g1 := snd (by_name construct name1 g) in
  registry_ok g1
  ∧ fst (by_name construct name1 g) ≠ fst (by_name construct name2 g1).
Proof.
  intros [Hlt Hinj] Hne.
  assert (registry_ok (snd (by_name construct name1 g))) as Hok.
  { unfold by_name. destruct (reg_names g !! name1) as [s |] eqn:Hn; simpl; [done |].
    split.
    - intros n s Hs. simpl in *. rewrite length_app. simpl.
      apply lookup_insert_Some in Hs as [[_ <-] | [_ Hs]]; [lia |].
      apply Hlt in Hs. lia.
    - intros n1 n2 s H1 H2. simpl in *.
      apply lookup_insert_Some in H1 as [[<- <-] | [Hn1 H1]];
        apply lookup_insert_Some in H2 as [[<- Hs2] | [Hn2 H2]]; try done.
      + apply Hlt in H2. lia.
      + apply Hlt in H1. lia.
      + by eapply Hinj. }
  split; [done |]. simpl.
  pose proof (by_name_registers name1 g) as H1.
  destruct Hok as [Hlt1 Hinj1].
  set (g1 := snd (by_name construct name1 g)) in *.
  unfold by_name at 2. destruct (reg_names g1 !! name2) as [s2 |] eqn:H2; simpl.
  - intros Heq. rewrite Heq in H1. apply Hne. by eapply Hinj1.
  - intros Heq. apply Hlt1 in H1. rewrite Heq in H1. lia.
Qed.

End Registry.

Section ThreadLocal.

Context {S A : Type}.
Variable construct : A → S.

(** X20. One session per thread, shared by every [ThreadLocalSession]:
    once a thread has a session, [_get] returns it to that thread and
    changes nothing, whichever [ThreadLocalSession] object (with whatever
    class and arguments) it is called on. *)
Theorem thread_get_same_session a a' t (g : thread_local S) :
  let s := fst (_get construct a t g) in
  let g1 := snd (_get construct a t g) in
  _get construct a' t g1 = (s, g1).
Proof.
  simpl. destruct (tl_session g !! t) as [s |] eqn:Ht.
  - assert (_get construct a t g = (s, g)) as -> by (unfold _get; by rewrite Ht).
    simpl. unfold _get. by rewrite Ht.
  - assert (_get construct a t g
            = (length (tl_objects g),
               {| tl_objects := tl_objects g ++ [construct a];
                  tl_session := <[t := length (tl_objects g)]> (tl_session g) |})) as ->
      by (unfold _get; by rewrite Ht).
    simpl. unfold _get. simpl. by rewrite lookup_insert_eq.
Qed.

(** X21. Threads do not see each other: [_get] and [close] in one thread
    leave the session of every other thread as it is, and never remove a
    session object. *)
Theorem thread_local_isolation a t t' (g : thread_local S) :
  t ≠ t' →
  tl_session (snd (_get construct a t g)) !! t' = tl_session g !! t'
  ∧ tl_session (snd (close t g)) !! t' = tl_session g !! t'
  ∧ (∀ i x, tl_objects g !! i = Some x →
       tl_objects (snd (_get construct a t g)) !! i = Some x
       ∧ tl_objects (snd (close t g)) !! i = Some x).
Proof.
  intros Hne. unfold _get, close.
  destruct (tl_session g !! t) as [s |]; simpl.
  - split; [done |]. split; [by rewrite lookup_delete_ne |]. by intros i x Hi.
  - split; [by rewrite lookup_insert_ne |]. split; [done |].
    intros i x Hi. split; [by apply lookup_app_l_Some | done].
Qed.

(** X22. [close] forgets the thread's session: in a well-formed state,
    for a thread that has a session, [close] returns, and the next [_get]
    constructs a new session object, different from the closed one, from
    the arguments of the [ThreadLocalSession] it is called on.  A [close]
    in a thread that has no session raises [AttributeError] and changes
    nothing. *)
Theorem close_then_get a t (g : thread_local S) s :
  thread_local_ok g →
  tl_session g !! t = Some s →
  let g1 := snd (close t g) in
  let s' := fst (_get construct a t g1) in
  fst (close t g) = Ok tt
  ∧ tl_session g1 !! t = None
  ∧ close t g1 = (Raise (AttributeError "session"), g1)
  ∧ s' ≠ s
  ∧ tl_objects (snd (_get construct a t g1)) !! s' = Some (construct a)
  ∧ tl_objects (snd (_get construct a t g1)) !! s = tl_objects g !! s.
Proof.
  intros Hok Hs.
  assert (close t g
          = (Ok tt, {| tl_objects := tl_objects g;
                       tl_session := base.delete t (tl_session g) |})) as ->
    by (unfold close; by rewrite Hs).
  simpl. split; [done |]. split; [apply lookup_delete_eq |].
  split; [unfold close; simpl; by rewrite lookup_delete_eq |].
  unfold _get. simpl. rewrite lookup_delete_eq. simpl.
  apply Hok in Hs.
  split; [lia |]. split; [by apply list_lookup_middle |].
  by apply lookup_app_l.
Qed.

End ThreadLocal.

(** ** [update_partial] *)

Section UpdatePartial.

Variable classes : cls → doc_class.

(** X23. [update_partial] goes straight to the store: it leaves the heap,
    the identity map and the unit of work as they are, whether it returns
    or raises; on a bound session it makes exactly one gateway call, the
    update it was given; and an instance that was cached is still served
    by [get], with the fields it had, whatever the update did to its
    record. *)
Theorem update_partial_bypasses_session c spec fields upsert w :
  let w' := snd (update_partial classes c spec fields upsert w) in
  memory w' = memory w
  ∧ (∀ db, w_bind w = Bound (Some db) →
       let name := mongometa_name (classes c) in
       update_partial classes c spec fields upsert w
       = (fst (update_op name spec fields upsert db),
          called w (snd (update_op name spec fields upsert db))
            [CallUpdate name spec fields upsert]))
  ∧ (∀ k r, w_imap w !! (c, k) = Some r →
       get classes c [("_id", k)] w' = (Ok (Some r), w')
       ∧ w_heap w' !! r = w_heap w !! r).
Proof.
  assert (keeps memory (update_partial classes c spec fields upsert)) as Hk.
  { unfold update_partial, coll_update.
    repeat first [ progress eauto with keeps | apply keeps_bind; [| intros ?] ]. }
  specialize (Hk w). cbv zeta. split; [done |]. split.
  - intros db Hb. unfold update_partial.
    run_with _impl_bound. run_with method_some.
    unfold coll_update. by apply gateway_bound.
  - unfold memory in Hk. injection Hk as Hheap Himap _.
    intros k r Hr. split; [| by rewrite Hheap].
    apply get_hit. by rewrite Himap.
Qed.

End UpdatePartial.

(** ** The small application, again *)

Lemma shop_classes_keep_id c : keeps_id (shop_classes c).
Proof.
  intros fl b f. unfold shop_classes.
  destruct (String.eqb c "Picky"); simpl.
  - destruct (b !! "name"); by intros [= ->].
  - apply app_classes_keep_id.
Qed.

(** A document joined to the session is served by [get]. *)
Lemma join_new_then_get_witness :
  ∃ w', join_new 0 w_keyed = (Ok tt, w')
        ∧ get app_classes "User" [("_id", VInt 5)] w' = (Ok (Some 0%nat), w').
Proof.
  destruct (join_new_then_get app_classes 0 w_keyed
              (Obj "User" {["_id" := VInt 5; "name" := VStr "n"]}) (VInt 5)
              eq_refl eq_refl)
    as (w' & Hjoin & _ & _ & _ & _ & Hget).
  exists w'. split; [exact Hjoin | exact Hget].
Defined.

(** The new document has no key to delete or to increase by. *)
Lemma no_primary_key_no_call_witness :
  delete app_classes 0 w_new = (Raise (AttributeError "_id"), w_new)
  ∧ increase_field app_classes 0 [("score", VInt 1)] w_new
    = (Raise (AttributeError "_id"), w_new).
Proof.
  exact (no_primary_key_no_call app_classes 0 w_new
           (Obj "User" {["name" := VStr "n"]}) db0 "score" (VInt 1) []
           eq_refl eq_refl eq_refl ltac:(done)).
Defined.

(** Nothing is cached and there is no binding. *)
Lemma get_without_database_witness :
  get app_classes "User" [("_id", VInt 1)] w_unbound
  = (Raise (AttributeError "db"), w_unbound).
Proof.
  apply (proj2 (get_without_database app_classes "User" [("_id", VInt 1)]
                  w_unbound eq_refl)).
  by intros k _.
Defined.

(** The user named "a", read by name from a fresh session. *)
Lemma get_materialises_record_witness :
  ∃ w', get app_classes "User" [("name", VStr "a")] w0 = (Ok (Some 0%nat), w')
        ∧ w_heap w' = [Obj "User" rec1]
        ∧ w_imap w' !! ("User", VInt 1) = Some 0%nat.
Proof.
  destruct (get_materialises_record app_classes "User" [("name", VStr "a")]
              w0 db0 rec1 rec1 (VInt 1)
              (app_classes_keep_id "User") eq_refl
              ltac:(by intros k [=])
              ltac:(vm_compute; reflexivity) eq_refl eq_refl eq_refl)
    as (w' & Hget & Hheap & Himap & _).
  exists w'. split; [exact Hget |]. split; [exact Hheap |].
  rewrite Himap. apply lookup_insert_eq.
Defined.

(** The stored record of the picky class has no name. *)
Lemma get_rejected_record_witness :
  get shop_classes "Picky" [("_id", VInt 7)] w_picky
  = (Raise (Invalid "name"),
     called w_picky db1
       [CallFindOne "picky" (eq_query (kw_dict [("_id", VInt 7)]))]).
Proof.
  apply (get_rejected_record shop_classes "Picky" [("_id", VInt 7)] w_picky db1
           {["_id" := VInt 7]} (Invalid "name") eq_refl).
  - by intros k _.
  - vm_compute. reflexivity.
  - by intros k _.
  - reflexivity.
Defined.

(** The stale user, read by name: the name is refreshed, [tmp] stays. *)
Lemma get_refreshes_cached_witness :
  ∃ w' (fields : bson),
    get app_classes "User" [("name", VStr "a")] w_stale = (Ok (Some 0%nat), w')
    ∧ w_heap w' = [Obj "User" fields]
    ∧ fields !! "name" = Some (VStr "a") ∧ fields !! "tmp" = Some (VInt 9)
    ∧ w_uow w' !! 0%nat = Some Clean.
Proof.
  destruct (get_refreshes_cached app_classes "User" [("name", VStr "a")]
              w_stale db0 rec1 rec1 (VInt 1) 0%nat
              (Obj "User" {["_id" := VInt 1; "name" := VStr "old"; "tmp" := VInt 9]})
              (app_classes_keep_id "User") eq_refl ltac:(done)
              ltac:(vm_compute; reflexivity) eq_refl eq_refl eq_refl eq_refl)
    as (w' & fields & Hget & Hheap & _ & Hnew & Hold & Hclean & _).
  exists w', fields. split; [exact Hget |]. split; [exact Hheap |].
  split; [apply Hnew; vm_compute; reflexivity |].
  split; [rewrite Hold; vm_compute; reflexivity | exact Hclean].
Defined.

(** The edited user, saved whole. *)
Lemma save_stores_validated_data_witness :
  ∃ w' db',
    save app_classes no_escape 0 [] w_edited = (Ok tt, w')
    ∧ w_bind w' = Bound (Some db')
    ∧ stored db' "user" (VInt 1)
      = Some {["_id" := VInt 1; "name" := VStr "z"; "score" := VInt 3]}.
Proof.
  destruct (save_stores_validated_data app_classes no_escape 0 w_edited
              (Obj "User" {["_id" := VInt 1; "name" := VStr "z"; "score" := VInt 3]})
              {["_id" := VInt 1; "name" := VStr "z"; "score" := VInt 3]}
              {["_id" := VInt 1; "name" := VStr "z"; "score" := VInt 3]}
              (VInt 1) db0 eq_refl eq_refl eq_refl eq_refl
              ltac:(vm_compute; reflexivity))
    as (w' & db' & Hsave & _ & Hb & Hstored & _).
  exists w', db'. split; [exact Hsave |]. split; [exact Hb | exact Hstored].
Defined.

(** The new document, saved: the store numbers it 1. *)
Lemma save_assigns_generated_key_witness :
  ∃ w' db',
    save app_classes no_escape 0 [] w_new = (Ok tt, w')
    ∧ w_bind w' = Bound (Some db')
    ∧ w_heap w' !! 0%nat
      = Some (Obj "User" (<["_id" := VOid 1]> ({["name" := VStr "n"]}
                                                ∪ {["name" := VStr "n"]}))).
Proof.
  destruct (save_assigns_generated_key app_classes no_escape 0 w_new
              (Obj "User" {["name" := VStr "n"]})
              {["name" := VStr "n"]} {["name" := VStr "n"]} db0
              eq_refl eq_refl eq_refl eq_refl
              ltac:(vm_compute; reflexivity)
              ltac:(repeat constructor; vm_compute; discriminate))
    as (w' & db' & Hsave & Hb & _ & _ & Hheap).
  exists w', db'. split; [exact Hsave |]. split; [exact Hb | exact Hheap].
Defined.

(** The new document, inserted. *)
Lemma insert_assigns_generated_key_witness :
  ∃ w' db',
    insert app_classes no_escape 0 w_new = (Ok tt, w')
    ∧ w_calls w' = [CallInsert "user" {["name" := VStr "n"]}]
    ∧ db_coll db' "user" = [rec1; <["_id" := VOid 1]> {["name" := VStr "n"]}].
Proof.
  destruct (insert_assigns_generated_key app_classes no_escape 0 w_new
              (Obj "User" {["name" := VStr "n"]}) {["name" := VStr "n"]} db0
              eq_refl eq_refl eq_refl
              ltac:(vm_compute; reflexivity)
              ltac:(repeat constructor; vm_compute; discriminate))
    as (w' & db' & Hins & Hcalls & _ & Hcoll & _).
  exists w', db'. split; [exact Hins |]. split; [exact Hcalls | exact Hcoll].
Defined.

(** The edited user has no email to upsert by. *)
Lemma upsert_missing_spec_field_witness :
  fst (upsert app_classes no_escape 0 (OneField "email") w_edited)
  = Raise (KeyError "email")
  ∧ store (snd (upsert app_classes no_escape 0 (OneField "email") w_edited))
    = store w_edited.
Proof.
  exact (upsert_missing_spec_field app_classes no_escape 0 w_edited
           (Obj "User" {["_id" := VInt 1; "name" := VStr "z"; "score" := VInt 3]})
           {["_id" := VInt 1; "name" := VStr "z"; "score" := VInt 3]}
           db0 (OneField "email") [] "email" []
           eq_refl eq_refl eq_refl eq_refl (Forall_nil_2 _) eq_refl).
Defined.


(** A partial save of the edited user that names a field it lacks. *)
Lemma partial_save_raises_before_writing_witness :
  fst (save app_classes no_escape 0 ["email"] w_edited) = Raise (KeyError "email")
  ∧ store (snd (save app_classes no_escape 0 ["email"] w_edited)) = store w_edited.
Proof.
  exact (proj1 (partial_save_raises_before_writing app_classes no_escape 0
                  ["email"] w_edited
                  (Obj "User" {["_id" := VInt 1; "name" := VStr "z"; "score" := VInt 3]})
                  {["_id" := VInt 1; "name" := VStr "z"; "score" := VInt 3]}
                  {["_id" := VInt 1; "name" := VStr "z"; "score" := VInt 3]}
                  db0 ltac:(done) eq_refl eq_refl eq_refl eq_refl)
           [] "email" [] eq_refl (Forall_nil_2 _) eq_refl).
Defined.

Lemma dicts1_ranked : ranked dicts1 (λ r, match r with 0%nat => 1%nat | _ => 0%nat end).
Proof.
  intros r m k r' Hr Hk. unfold dicts1 in Hr.
  apply lookup_insert_Some in Hr as [[<- <-] | [_ Hr]].
  - apply lookup_insert_Some in Hk as [[_ [= <-]] | [_ Hk]]; [simpl; lia |].
    apply lookup_insert_Some in Hk as [[_ [= <-]] | [_ Hk]]; [simpl; lia |].
    by apply lookup_singleton_Some in Hk as [_ ?].
  - apply lookup_singleton_Some in Hr as [<- <-].
    by apply lookup_singleton_Some in Hk as [_ ?].
Qed.

Lemma dicts1_set :
  _set dicts1 (DictRef 0) ["a"; "b"] (Plain (VInt 2)) = Done dicts1_written.
Proof. vm_compute. reflexivity. Qed.

(** The shared [dict] is changed for both of its holders: after [a.b] has
    been assigned, [also.b] reads the new value. *)
Lemma dicts1_shared :
  lookup_path dicts1_written (DictRef 0) ["also"; "b"] = Some (Plain (VInt 2)).
Proof. vm_compute. reflexivity. Qed.

(** Writing [a.b] in the nested document. *)
Lemma set_then_lookup_witness :
  _set dicts1 (DictRef 0) ["a"; "b"] (Plain (VInt 2)) = Done dicts1_written
  ∧ lookup_path dicts1_written (DictRef 0) ["a"; "b"] = Some (Plain (VInt 2)).
Proof.
  split; [exact dicts1_set |].
  apply (set_then_lookup ["a"] "b" dicts1 (DictRef 0) (Plain (VInt 2))
           dicts1_written dicts1_set).
  intros r Hr. by apply (ranked_reads dicts1 _ ["a"] (DictRef 0) r "b" dicts1_ranked).
Defined.

(** ... leaves [z] alone, and every [dict] but number 1. *)
Lemma set_other_paths_witness :
  lookup_path dicts1_written (DictRef 0) ["z"] = lookup_path dicts1 (DictRef 0) ["z"]
  ∧ dicts1_written !! 0%nat = dicts1 !! 0%nat.
Proof.
  destruct (set_other_paths ["a"] "b" dicts1 (DictRef 0) (Plain (VInt 2))
              dicts1_written dicts1_set)
    as (r & m & Hinit & _ & _ & Hothers & Hframe).
  assert (r = 1%nat) as -> by (vm_compute in Hinit; by injection Hinit).
  split; [| by apply Hothers].
  apply Hframe.
  assert (reads dicts1 (DictRef 0) ["z"] = [(0%nat, "z")]) as ->
    by (vm_compute; reflexivity).
  by intros [=]%list_elem_of_singleton.
Defined.

(** The first [by_name('main')] binds the session to the main store. *)
Lemma by_name_constructs_once_witness :
  fst (by_name session_for "main" registry0) = 0%nat
  ∧ reg_objects (snd (by_name session_for "main" registry0)) !! 0%nat
    = Some (new_session (Bound (Some db0)) true).
Proof.
  destruct (by_name_constructs_once session_for "main" registry0 eq_refl)
    as (Hs & Hobj & _).
  split; [exact Hs | exact Hobj].
Defined.

Lemma registry0_ok : registry_ok registry0.
Proof. split; intros *; simpl; by rewrite lookup_empty. Qed.

(** 'main' and 'other' get different sessions. *)
Lemma by_name_distinct_names_witness :
  registry_ok (snd (by_name session_for "main" registry0))
  ∧ fst (by_name session_for "main" registry0)
    ≠ fst (by_name session_for "other"
             (snd (by_name session_for "main" registry0))).
Proof.
  exact (by_name_distinct_names session_for "main" "other" registry0
           registry0_ok ltac:(done)).
Defined.

(** Thread 1 gets a session; thread 2 still has none. *)
Lemma thread_local_isolation_witness :
  tl_session (snd (_get session_with (Bound (Some db0), true) 1 threads0)) !! 2%nat
  = None.
Proof.
  exact (proj1 (thread_local_isolation session_with (Bound (Some db0), true)
                  1 2 threads0 ltac:(done))).
Defined.

Lemma threads1_ok :
  thread_local_ok (snd (_get session_with (Bound (Some db0), true) 1 threads0)).
Proof.
  intros t s. unfold _get, threads0. simpl. rewrite lookup_empty. simpl.
  intros [[_ <-] | [_ H]]%lookup_insert_Some; simpl; [lia |].
  by rewrite lookup_empty in H.
Qed.

(** Thread 1 closes its session and gets another one. *)
Lemma close_then_get_witness :
  let g := snd (_get session_with (Bound (Some db0), true) 1 threads0) in
  fst (close 1 g) = Ok tt
  ∧ fst (_get session_with (NoBind, false) 1 (snd (close 1 g))) = 1%nat
  ∧ tl_objects (snd (_get session_with (NoBind, false) 1 (snd (close 1 g)))) !! 1%nat
    = Some (new_session NoBind false).
Proof.
  destruct (close_then_get session_with (NoBind, false) 1
              (snd (_get session_with (Bound (Some db0), true) 1 threads0)) 0%nat
              threads1_ok eq_refl)
    as (Hclose & _ & _ & _ & Hobj & _).
  split; [exact Hclose |]. split; [reflexivity | exact Hobj].
Defined.
